(** * partridge.readers: calendar resolution and aggregate queries

    A shallow embedding of [src/partridge/readers.py] and the properties
    its specification states about it.

    Conventions of the embedding.
    - A [datetime.date] is its proleptic Gregorian ordinal
      ([date.toordinal()], a [Z]); [date.fromordinal] is the identity.
    - A pandas table is the list of its rows, a row a record of the raw
      (textual) cells of the columns the code reads.
    - A Python [dict] / [defaultdict] is a [gmap], a [set] / [frozenset]
      a [gset]; where the code iterates over one, the embedding iterates
      over its list of items and the development shows that the order of
      that list does not matter.
    - A raised exception is the left injection of [result]. *)

From Stdlib Require Import ZArith String Ascii.
From stdpp Require Import gmap strings fin_maps numbers list.

Open Scope string_scope.
Open Scope Z_scope.

#[local] Set Warnings "-clear-no-such-hyp".

(** ** Exceptions *)

(** The exceptions the module raises, by class.  [External] wraps whatever
    a collaborator outside this module raises, keeping raise sites apart. *)
Inductive exn : Type :=
| ValueError (msg : string)
| AssertionError (msg : string)
| KeyError
| External (e : string).

Definition result (A : Type) : Type := (exn + A)%type.

Definition raise {A : Type} (e : exn) : result A := inl e.

#[global] Instance result_ret : MRet result := λ A x, inr x.
#[global] Instance result_bind : MBind result :=
  λ A B f m, match m with inl e => inl e | inr x => f x end.
#[global] Instance result_fmap : FMap result :=
  λ A B f m, match m with inl e => inl e | inr x => inr (f x) end.

(** A [for] loop whose body may raise: the body threads the loop's state. *)
Fixpoint for_each {A S : Type} (body : A → S → result S) (l : list A) (s : S)
  : result S :=
  match l with
  | [] => mret s
  | x :: l => s' ← body x s; for_each body l s'
  end.

(** A comprehension whose element expression may raise. *)
Fixpoint map_each {A B : Type} (f : A → result B) (l : list A)
  : result (list B) :=
  match l with
  | [] => mret []
  | x :: l => y ← f x; ys ← map_each f l; mret (y :: ys)
  end.

(** ** Tables *)

(** trips.txt: the one column read here. *)
Record TripsRow : Type := { trip_service_id : string }.

(** calendar.txt: the weekly pattern, every cell still text. *)
Record CalendarRow : Type := {
  cal_service_id : string;
  cal_start_date : string;
  cal_end_date : string;
  monday : string;
  tuesday : string;
  wednesday : string;
  thursday : string;
  friday : string;
  saturday : string;
  sunday : string
}.

(** calendar_dates.txt: the per-date exceptions. *)
Record CalendarDatesRow : Type := {
  cd_service_id : string;
  cd_date : string;
  cd_exception_type : string
}.

(** The three table accessors of a feed that the calendar code reads. *)
Record Feed : Type := {
  trips : list TripsRow;
  calendar : list CalendarRow;
  calendar_dates : list CalendarDatesRow
}.

(** [DataFrame.empty] *)
Definition df_empty {A : Type} (df : list A) : bool :=
  match df with [] => true | _ => false end.

(** The cell parsers: [parsers.parse_date] (vectorised by [vparse_date])
    and Python's [int] applied to a text cell.  Both are collaborators of
    this module; [None] stands for the [ValueError] they raise. *)
Class Parsers : Type := {
  parse_date : string → option Z;
  int : string → option Z
}.

(** The [ValueError] of a cell parser.  Its message, which quotes the cell,
    is not modelled: every failing cell raises this one value. *)
Definition parse_error : exn := ValueError "invalid literal".

Definition parsed {A : Type} (o : option A) : result A :=
  match o with Some x => mret x | None => raise parse_error end.

(** ** Dates and weeks *)

(** [date.weekday()]: Monday is 0, Sunday is 6. *)
Definition weekday (ordinal : Z) : Z := (ordinal + 6) `mod` 7.

Definition DAY_NAMES : list (CalendarRow → string) :=
  [monday; tuesday; wednesday; thursday; friday; saturday; sunday].

(** [dow = {i: cal[day] for i, day in enumerate(DAY_NAMES)}], then [dow[i]]. *)
Definition dow (cal : CalendarRow) (i : Z) : result string :=
  if decide (0 ≤ i) then
    match DAY_NAMES !! Z.to_nat i with
    | Some day => mret (day cal)
    | None => raise KeyError
    end
  else raise KeyError.

(** The isoweek library's [Week], the ISO year and week number of a period of
    seven days that starts on a Monday.  Two dates have the same [Week]
    exactly when they have the same Monday, so a week is identified here by
    the ordinal of its Monday: [Week.withdate] steps back to it, and
    [Week.toordinal] is the library's [self.monday().toordinal() // 7 + 1]. *)
Module Week.
Definition withdate (date : Z) : Z := date - weekday date.
Definition toordinal (week : Z) : Z := week `div` 7 + 1.
End Week.

(** ** Dictionaries *)

(** [d[k]] on a [defaultdict]: the value read. *)
Definition getdefault {K V : Type} `{Countable K} (dflt : V) (d : gmap K V) (k : K)
  : V := default dflt (d !! k).

(** [d[k]] on a [defaultdict]: the key it leaves behind when missing. *)
Definition touch {K V : Type} `{Countable K} (dflt : V) (k : K) (d : gmap K V)
  : gmap K V :=
  match d !! k with Some _ => d | None => <[k := dflt]> d end.

(** [d[k]] on a plain [dict]. *)
Definition getitem {K V : Type} `{Countable K} (d : gmap K V) (k : K) : result V :=
  match d !! k with Some v => mret v | None => raise KeyError end.

(** [d[k].add(x)] on a [defaultdict(set)] *)
Definition add_to {K X : Type} `{Countable K} `{Countable X}
  (k : K) (x : X) (d : gmap K (gset X)) : gmap K (gset X) :=
  <[k := getdefault ∅ d k ∪ {[x]}]> d.

(** ** _service_ids_by_date *)

Section calendar_resolution.
Context `{Parsers}.

(** Rows of calendar.txt after [vparse_date] replaced both date columns.
    The code parses one column, then the other; a cell that fails in either
    raises the same [parse_error], so the rows are parsed one by one. *)
Definition parse_calendar (calendar : list CalendarRow)
  : result (list (CalendarRow * Z * Z)) :=
  map_each (λ cal,
    start ← parsed (parse_date (cal_start_date cal));
    end_ ← parsed (parse_date (cal_end_date cal));
    mret (cal, start, end_)) calendar.

(** Rows of calendar_dates.txt after [vparse_date] replaced [date]. *)
Definition parse_caldates (caldates : list CalendarDatesRow)
  : result (list (CalendarDatesRow * Z)) :=
  map_each (λ cd, date ← parsed (parse_date (cd_date cd)); mret (cd, date))
    caldates.

(** The body of [for ordinal in range(start, end + 1)]. *)
Definition calendar_day (cal : CalendarRow) (ordinal : Z)
  (results : gmap Z (gset string)) : result (gmap Z (gset string)) :=
  let date := ordinal in
  flag ← dow cal (weekday date);
  n ← parsed (int flag);
  if decide (n ≠ 0) then mret (add_to date (cal_service_id cal) results)
  else mret results.

(** The body of [for _, cal in calendar.iterrows()]. *)
Definition calendar_row (row : CalendarRow * Z * Z)
  (results : gmap Z (gset string)) : result (gmap Z (gset string)) :=
  let '(cal, start, end_) := row in
  for_each (calendar_day cal) (seqZ start (end_ + 1 - start)) results.

(** [if service_id in results[date]: results[date].remove(service_id)] *)
Definition remove_service (date : Z) (service_id : string)
  (results : gmap Z (gset string)) : gmap Z (gset string) :=
  let results := touch ∅ date results in
  if decide (service_id ∈ getdefault ∅ results date)
  then <[date := getdefault ∅ results date ∖ {[service_id]}]> results
  else results.

(** [if len(results[date]) == 0: del results[date]] *)
Definition drop_if_empty (date : Z) (results : gmap Z (gset string))
  : gmap Z (gset string) :=
  let results := touch ∅ date results in
  if decide (size (getdefault ∅ results date) = 0%nat)
  then delete date results
  else results.

(** The body of [for date in removals], over the items of [removals]. *)
Definition process_removal (results : gmap Z (gset string))
  (item : Z * gset string) : gmap Z (gset string) :=
  let '(date, service_ids) := item in
  drop_if_empty date
    (foldl (λ results service_id, remove_service date service_id results)
       results (elements service_ids)).

(** Lines 170-184: the weekly pattern's additions. *)
Definition calendar_block (calendar : list CalendarRow)
  (results : gmap Z (gset string)) : result (gmap Z (gset string)) :=
  if negb (df_empty calendar)
  then calendar ← parse_calendar calendar;
       for_each calendar_row calendar results
  else mret results.

(** Lines 190-210: the exception table's additions, then its removals. *)
Definition apply_caldates (caldates : list (CalendarDatesRow * Z))
  (results : gmap Z (gset string)) : gmap Z (gset string) :=
  let cdadd := filter (λ cd, cd_exception_type cd.1 = "1") caldates in
  let cdrem := filter (λ cd, cd_exception_type cd.1 = "2") caldates in
  let results :=
    foldl (λ results cd, add_to cd.2 (cd_service_id cd.1) results) results cdadd in
  let removals :=
    foldl (λ removals cd, add_to cd.2 (cd_service_id cd.1) removals) ∅ cdrem in
  foldl process_removal results (map_to_list removals).

(** Lines 186-210. *)
Definition caldates_block (caldates : list CalendarDatesRow)
  (results : gmap Z (gset string)) : result (gmap Z (gset string)) :=
  if negb (df_empty caldates)
  then caldates ← parse_caldates caldates;
       mret (apply_caldates caldates results)
  else mret results.

(** [set(feed.trips.service_id)] *)
Definition trip_service_ids (feed : Feed) : gset string :=
  list_to_set (trip_service_id <$> trips feed).

(** Lines 162-164: the weekly pattern's rows with applicable trips. *)
Definition applicable_calendar (feed : Feed) : list CalendarRow :=
  let calendar := calendar feed in
  if negb (df_empty calendar)
  then filter (λ cal, cal_service_id cal ∈ trip_service_ids feed) calendar
  else calendar.

(** Lines 166-168: the exception rows with applicable trips. *)
Definition applicable_caldates (feed : Feed) : list CalendarDatesRow :=
  let caldates := calendar_dates feed in
  if negb (df_empty caldates)
  then filter (λ cd, cd_service_id cd ∈ trip_service_ids feed) caldates
  else caldates.

(** Lines 155-210: [results] as it stands when the [assert] is reached. *)
Definition accumulate (feed : Feed) : result (gmap Z (gset string)) :=
  let results : gmap Z (gset string) := ∅ in
  let calendar := applicable_calendar feed in
  let caldates := applicable_caldates feed in
  results ← calendar_block calendar results;
  caldates_block caldates results.

Definition _service_ids_by_date (feed : Feed) : result (gmap Z (gset string)) :=
  results ← accumulate feed;
  if decide (size results = 0%nat)
  then raise (AssertionError "No service found in feed.")
  else mret results.

End calendar_resolution.

(** ** _dates_by_service_ids, _trip_counts_by_date *)

Section aggregate_queries.
Context `{Parsers}.

(** The body of [for date, service_ids in ....items()]. *)
Definition group_date (results : gmap (gset string) (gset Z))
  (item : Z * gset string) : gmap (gset string) (gset Z) :=
  let '(date, service_ids) := item in add_to service_ids date results.

Definition _dates_by_service_ids (feed : Feed)
  : result (gmap (gset string) (gset Z)) :=
  service_ids_by_date ← _service_ids_by_date feed;
  mret (foldl group_date ∅ (map_to_list service_ids_by_date)).

(** [trips[trips.service_id.isin(service_ids)].shape[0]] *)
Definition trip_count (trips : list TripsRow) (service_ids : gset string) : Z :=
  Z.of_nat (length (filter (λ t, trip_service_id t ∈ service_ids) trips)).

(** The body of [for service_ids, dates in ....items()]. *)
Definition count_dates (trips : list TripsRow) (results : gmap Z Z)
  (item : gset string * gset Z) : gmap Z Z :=
  let '(service_ids, dates) := item in
  let trip_count := trip_count trips service_ids in
  foldl (λ results date, <[date := getdefault 0 results date + trip_count]> results)
    results (elements dates).

Definition _trip_counts_by_date (feed : Feed) : result (gmap Z Z) :=
  let trips := trips feed in
  dates_by_service_ids ← _dates_by_service_ids feed;
  mret (foldl (count_dates trips) ∅ (map_to_list dates_by_service_ids)).

(** ** _busiest_date, _busiest_week *)

(** Python's [<] on pairs of integers. *)
Definition tuple_lt (a b : Z * Z) : bool :=
  (a.1 <? b.1) || ((a.1 =? b.1) && (a.2 <? b.2)).

(** [max(iterable, key=key)] after its first item: a later item replaces
    the running maximum only when its key is strictly greater. *)
Fixpoint max_from {A : Type} (key : A → Z * Z) (best : A) (l : list A) : A :=
  match l with
  | [] => best
  | x :: l => max_from key (if tuple_lt (key best) (key x) then x else best) l
  end.

Definition max_ {A : Type} (l : list A) (key : A → Z * Z) : result A :=
  match l with
  | [] => raise (ValueError "max() arg is an empty sequence")
  | x :: l => mret (max_from key x l)
  end.

(** [max_by] of [_busiest_date] *)
Definition max_by_date (kv : Z * Z) : Z * Z :=
  let '(date, count) := kv in (count, - date).

Definition _busiest_date (feed : Feed) : result (Z * gset string) :=
  service_ids_by_date ← _service_ids_by_date feed;
  trip_counts_by_date ← _trip_counts_by_date feed;
  '(date, _) ← max_ (map_to_list trip_counts_by_date) max_by_date;
  service_ids ← getitem service_ids_by_date date;
  mret (date, service_ids).

(** The body of [for date in service_ids_by_date.keys()]. *)
Definition week_step (trip_counts_by_date : gmap Z Z) (date : Z)
  (acc : gmap Z Z * gmap Z (list Z)) : result (gmap Z Z * gmap Z (list Z)) :=
  let '(weekly_trip_counts, weekly_dates) := acc in
  let key := Week.withdate date in
  count ← getitem trip_counts_by_date date;
  mret (<[key := getdefault 0 weekly_trip_counts key + count]> weekly_trip_counts,
        <[key := (getdefault [] weekly_dates key ++ [date])%list]> weekly_dates).

(** [max_by] of [_busiest_week] *)
Definition max_by_week (kv : Z * Z) : Z * Z :=
  let '(week, count) := kv in (count, - Week.toordinal week).

(** [{date: service_ids_by_date[date] for date in dates}] *)
Definition restrict_to (service_ids_by_date : gmap Z (gset string))
  (dates : list Z) : result (gmap Z (gset string)) :=
  for_each (λ date out,
      service_ids ← getitem service_ids_by_date date;
      mret (<[date := service_ids]> out))
    dates ∅.

(** Lines 137-142: the week buckets, their totals and their dates. *)
Definition weekly_buckets (service_ids_by_date : gmap Z (gset string))
  (trip_counts_by_date : gmap Z Z) : result (gmap Z Z * gmap Z (list Z)) :=
  for_each (week_step trip_counts_by_date)
    (map_to_list service_ids_by_date).*1 (∅, ∅).

Definition _busiest_week (feed : Feed) : result (gmap Z (gset string)) :=
  service_ids_by_date ← _service_ids_by_date feed;
  trip_counts_by_date ← _trip_counts_by_date feed;
  '(weekly_trip_counts, weekly_dates) ←
    weekly_buckets service_ids_by_date trip_counts_by_date;
  '(week, _) ← max_ (map_to_list weekly_trip_counts) max_by_week;
  let dates := getdefault [] weekly_dates week in
  restrict_to service_ids_by_date dates.

End aggregate_queries.

(** ** A concrete parser pair

    [strict_parsers] reads a date written as eight decimal digits
    (the [%Y%m%d] form of the file format) and an integer written as a
    non-empty run of decimal digits.  It is one instance of [Parsers];
    the theorems below hold for every instance. *)

Definition digit (c : ascii) : option Z :=
  let n := Z.of_N (N_of_ascii c) in
  if (48 <=? n) && (n <=? 57) then Some (n - 48) else None.

Fixpoint digits (acc : Z) (s : string) : option Z :=
  match s with
  | EmptyString => Some acc
  | String c s => d ← digit c; digits (10 * acc + d) s
  end.

Definition decimal (s : string) : option Z :=
  match s with EmptyString => None | _ => digits 0 s end.

Definition is_leap (y : Z) : bool :=
  (y `mod` 4 =? 0) && (negb (y `mod` 100 =? 0) || (y `mod` 400 =? 0)).

Definition days_in_month (y m : Z) : Z :=
  if m =? 2 then (if is_leap y then 29 else 28)
  else if (m =? 4) || (m =? 6) || (m =? 9) || (m =? 11) then 30 else 31.

Definition days_before_year (y : Z) : Z :=
  let y := y - 1 in y * 365 + y `div` 4 - y `div` 100 + y `div` 400.

Definition days_before_month (y m : Z) : Z :=
  foldr Z.add 0 (days_in_month y <$> seqZ 1 (m - 1)).

Definition ymd2ord (y m d : Z) : Z :=
  days_before_year y + days_before_month y m + d.

Definition strict_date (s : string) : option Z :=
  if decide (String.length s = 8%nat) then
    y ← decimal (substring 0 4 s);
    m ← decimal (substring 4 2 s);
    d ← decimal (substring 6 2 s);
    if (1 <=? y) && (1 <=? m) && (m <=? 12) && (1 <=? d) && (d <=? days_in_month y m)
    then Some (ymd2ord y m d) else None
  else None.

Definition strict_parsers : Parsers :=
  {| parse_date := strict_date; int := decimal |}.

(** The feed of the specification's worked example: service WD runs
    Monday to Friday from 2020-01-01 to 2020-01-10; on 2020-01-01 HOL is
    added and WD removed; three trips run on WD and one on HOL. *)
Definition example_feed : Feed := {|
  trips := [ {| trip_service_id := "WD" |}; {| trip_service_id := "WD" |};
             {| trip_service_id := "WD" |}; {| trip_service_id := "HOL" |} ];
  calendar := [ {| cal_service_id := "WD";
                   cal_start_date := "20200101"; cal_end_date := "20200110";
                   monday := "1"; tuesday := "1"; wednesday := "1";
                   thursday := "1"; friday := "1";
                   saturday := "0"; sunday := "0" |} ];
  calendar_dates := [ {| cd_service_id := "HOL"; cd_date := "20200101";
                         cd_exception_type := "1" |};
                      {| cd_service_id := "WD"; cd_date := "20200101";
                         cd_exception_type := "2" |} ]
|}.

(** ** load_feed and the feed it builds *)

(** The graph collaborators: networkx's acyclicity test, the graphs of
    [config.py] and the two structural transforms. *)
Class Graph (DiGraph : Type) : Type := {
  is_directed_acyclic_graph : DiGraph → bool;
  default_config : DiGraph;
  empty_config : DiGraph;
  reroot_graph : DiGraph → string → DiGraph;
  remove_node_attributes : DiGraph → string → DiGraph
}.

(** The calls that reach the file system, each with the type of its answer.
    [FeedInit] is what constructing a [Feed] over a directory does there;
    an answer [Some e] of [UnpackArchive] or [FeedInit] is an exception the
    call raised. *)
Inductive fsE : Type → Type :=
| IsDir (path : string) : fsE bool
| IsFile (path : string) : fsE bool
| Mkdtemp : fsE string
| UnpackArchive (path tmpdir : string) : fsE (option string)
| FeedInit (path : string) : fsE (option string)
| Finalize (tmpdir : string) : fsE unit.

(** A computation that may call the file system and may raise. *)
Inductive io (A : Type) : Type :=
| Ret (r : result A)
| Vis {X : Type} (e : fsE X) (k : X → io A).
Arguments Ret {A} r.
Arguments Vis {A X} e k.

Fixpoint io_bind {A B : Type} (f : A → io B) (m : io A) : io B :=
  match m with
  | Ret (inl e) => Ret (inl e)
  | Ret (inr x) => f x
  | Vis e k => Vis e (λ x, io_bind f (k x))
  end.

#[global] Instance io_ret : MRet io := λ A x, Ret (inr x).
#[global] Instance io_mbind : MBind io := @io_bind.

Definition call {X : Type} (e : fsE X) : io X := Vis e (λ x, Ret (inr x)).
Definition throw {A : Type} (e : exn) : io A := Ret (inl e).

(** A call whose answer [Some e] is an exception raised outside this module. *)
Definition checked (e : fsE (option string)) : io unit :=
  r ← call e;
  match r with Some err => throw (External err) | None => mret () end.

(** One run against a file system: [handle] answers a call in state [s] and
    gives the next state; the run returns the outcome, the final state and
    the calls made, in order. *)
Fixpoint run {FS A : Type} (handle : ∀ X, fsE X → FS → X * FS) (m : io A) (s : FS)
  : result A * FS * list {X : Type & fsE X} :=
  match m with
  | Ret r => (r, s, [])
  | Vis e k =>
      let '(x, s') := handle _ e s in
      let '(r, s'', calls) := run handle (k x) s' in
      (r, s'', existT _ e :: calls)
  end.

Section loader.
Context {DiGraph ColumnFilter : Type} `{Graph DiGraph}.

(** A [gtfs.Feed] object as its constructor is called here: over a
    directory or over another feed, with the view, the graph, and the
    attribute [_delete_after_reading] (unset by the constructor). *)
Inductive FeedObject : Type :=
| FeedOverPath (source : string)
    (view : list (string * ColumnFilter)) (config : DiGraph)
    (_delete_after_reading : bool)
| FeedOverFeed (source : FeedObject)
    (view : list (string * ColumnFilter)) (config : DiGraph)
    (_delete_after_reading : bool).

(** [Feed(path, view=view, config=config)] *)
Definition Feed_of_path (path : string) (view : list (string * ColumnFilter))
  (config : DiGraph) : io FeedObject :=
  checked (FeedInit path);; mret (FeedOverPath path view config false).

(** [Feed(feed, view=view, config=config)] *)
Definition Feed_of_feed (feed : FeedObject) (view : list (string * ColumnFilter))
  (config : DiGraph) : FeedObject :=
  FeedOverFeed feed view config false.

(** [feed._delete_after_reading = True] *)
Definition set_delete_after_reading (feed : FeedObject) : FeedObject :=
  match feed with
  | FeedOverPath source view config _ => FeedOverPath source view config true
  | FeedOverFeed source view config _ => FeedOverFeed source view config true
  end.

(** The body of [for filename, column_filters in filters.items()]. *)
Definition layer (acc : FeedObject * DiGraph) (item : string * ColumnFilter)
  : FeedObject * DiGraph :=
  let '(feed, filter_config) := acc in
  let '(filename, column_filters) := item in
  let filter_config := reroot_graph filter_config filename in
  let view := [(filename, column_filters)] in
  (Feed_of_feed feed view filter_config, filter_config).

Definition _load_feed (path : string) (filters : list (string * ColumnFilter))
  (config : DiGraph) : io FeedObject :=
  let filter_config := remove_node_attributes config "converters" in
  feed ← Feed_of_path path [] filter_config;
  let '(feed, _) := foldl layer (feed, filter_config) filters in
  mret (Feed_of_feed feed [] config).

Definition _unpack_feed (path : string) (filters : list (string * ColumnFilter))
  (config : DiGraph) : io FeedObject :=
  tmpdir ← call Mkdtemp;
  checked (UnpackArchive path tmpdir);;
  feed ← _load_feed tmpdir filters config;
  let feed := set_delete_after_reading feed in
  call (Finalize tmpdir);;
  mret feed.

Definition load_feed (path : string) (filters : option (list (string * ColumnFilter)))
  (config : option DiGraph) : io FeedObject :=
  let config := match config with None => default_config | Some config => config end in
  let filters := match filters with None => [] | Some filters => filters end in
  if negb (is_directed_acyclic_graph config)
  then throw (ValueError "Config must be a DAG")
  else
    isdir ← call (IsDir path);
    if isdir : bool then _load_feed path filters config
    else
      isfile ← call (IsFile path);
      if isfile : bool then _unpack_feed path filters config
      else throw (ValueError ("File or path not found: " ++ path)).

Definition load_raw_feed (path : string) : io FeedObject :=
  load_feed path (Some []) (Some empty_config).

End loader.

(** ** The vocabulary of the specification *)

Section vocabulary.
Context `{Parsers}.

(** [service_id] is active on [date] in a date-to-services mapping. *)
Definition active (m : gmap Z (gset string)) (date : Z) (service_id : string)
  : Prop := service_id ∈ getdefault ∅ m date.

(** Every value of the mapping is a non-empty set. *)
Definition nonempty_values {K X : Type} `{Countable K} `{Countable X}
  (m : gmap K (gset X)) : Prop :=
  ∀ k s, m !! k = Some s → s ≠ ∅.

(** [service_id] appears in the trips table's service_id column. *)
Definition referenced (feed : Feed) (service_id : string) : Prop :=
  ∃ t, t ∈ trips feed ∧ trip_service_id t = service_id.

(** The flag cell of a weekly-pattern row for weekday 0 (Monday) to 6
    (Sunday). *)
Definition weekday_flag (cal : CalendarRow) (i : Z) : string :=
  if i =? 0 then monday cal else if i =? 1 then tuesday cal
  else if i =? 2 then wednesday cal else if i =? 3 then thursday cal
  else if i =? 4 then friday cal else if i =? 5 then saturday cal
  else sunday cal.

(** The row's flag for the weekday of [date] is set. *)
Definition flag_set (cal : CalendarRow) (date : Z) : Prop :=
  ∃ n, int (weekday_flag cal (weekday date)) = Some n ∧ n ≠ 0.

(** Some weekly-pattern row of a referenced service covers [date] with its
    inclusive range and has the flag of the date's weekday set. *)
Definition calendar_adds (feed : Feed) (date : Z) (service_id : string) : Prop :=
  ∃ cal start end_,
    cal ∈ calendar feed ∧ cal_service_id cal = service_id ∧
    referenced feed service_id ∧
    parse_date (cal_start_date cal) = Some start ∧
    parse_date (cal_end_date cal) = Some end_ ∧
    start ≤ date ≤ end_ ∧ flag_set cal date.

(** Some exception row of a referenced service, of the given exception
    type, names [date]. *)
Definition exception_row (type : string) (feed : Feed) (date : Z)
  (service_id : string) : Prop :=
  ∃ cd,
    cd ∈ calendar_dates feed ∧ cd_service_id cd = service_id ∧
    referenced feed service_id ∧
    cd_exception_type cd = type ∧ parse_date (cd_date cd) = Some date.

Definition exception_adds : Feed → Z → string → Prop := exception_row "1".
Definition exception_removes : Feed → Z → string → Prop := exception_row "2".

(** The feed with its exception table replaced. *)
Definition with_calendar_dates (feed : Feed) (rows : list CalendarDatesRow)
  : Feed :=
  {| trips := trips feed; calendar := calendar feed; calendar_dates := rows |}.

(** Re-expanding a service-to-dates grouping to per-date entries. *)
Definition expand (groups : gmap (gset string) (gset Z)) : gmap Z (gset string) :=
  list_to_map
    (mbind (M := list) (λ '(service_ids, dates), (λ date : Z, (date, service_ids)) <$> elements dates)
       (map_to_list groups)).

(** The total trip count of the dates of a mapping that fall in a week. *)
Definition week_total (counts : gmap Z Z) (dates : gset Z) (week : Z) : Z :=
  foldr Z.add 0
    ((λ date, getdefault 0 counts date) <$>
       elements (filter (λ date, Week.withdate date = week) dates)).

End vocabulary.

(** ** Closed inputs *)

(** The mapping the worked example resolves to: 2020-01-01 (ordinal 737425,
    a Wednesday) runs HOL only; the other weekdays up to 2020-01-10 run WD. *)
Definition example_services : gmap Z (gset string) :=
  list_to_map
    [ (737425, {[ "HOL" ]}); (737426, {[ "WD" ]}); (737427, {[ "WD" ]});
      (737430, {[ "WD" ]}); (737431, {[ "WD" ]}); (737432, {[ "WD" ]});
      (737433, {[ "WD" ]}); (737434, {[ "WD" ]}) ].

(** The worked example with the two exception rows in the other order. *)
Definition example_caldates_reversed : list CalendarDatesRow :=
  [ {| cd_service_id := "WD"; cd_date := "20200101"; cd_exception_type := "2" |};
    {| cd_service_id := "HOL"; cd_date := "20200101"; cd_exception_type := "1" |} ].

(** A feed none of whose calendar rows belongs to a trip. *)
Definition unreferenced_feed : Feed := {|
  trips := [ {| trip_service_id := "WD" |} ];
  calendar := [ {| cal_service_id := "SAT";
                   cal_start_date := "20200101"; cal_end_date := "20200110";
                   monday := "0"; tuesday := "0"; wednesday := "0";
                   thursday := "0"; friday := "0";
                   saturday := "1"; sunday := "0" |} ];
  calendar_dates := []
|}.

(** The worked example with its rows repeated and in another order. *)
Definition example_feed_shuffled : Feed := {|
  trips := [ {| trip_service_id := "HOL" |}; {| trip_service_id := "WD" |};
             {| trip_service_id := "HOL" |} ];
  calendar := calendar example_feed ++ calendar example_feed;
  calendar_dates := example_caldates_reversed ++ calendar_dates example_feed
|}.

(** The trip counts of the worked example. *)
Definition example_counts : gmap Z Z :=
  list_to_map
    [ (737425, 1); (737426, 3); (737427, 3); (737430, 3); (737431, 3);
      (737432, 3); (737433, 3); (737434, 3) ].

(** The busiest week of the worked example: Monday 2020-01-06 to Friday
    2020-01-10. *)
Definition example_week : gmap Z (gset string) :=
  list_to_map
    [ (737430, {[ "WD" ]}); (737431, {[ "WD" ]}); (737432, {[ "WD" ]});
      (737433, {[ "WD" ]}); (737434, {[ "WD" ]}) ].

(** Two filters, on two tables. *)
Definition example_filters : list (string * string) :=
  [ ("trips.txt", "route_id"); ("stops.txt", "stop_id") ].

(** Graphs as lists of edges, for closed examples of [Graph].  An edge
    whose source has no incoming edge lies on no cycle; the graph is
    acyclic when removing such edges, round after round, removes them
    all.  Edge lists carry no attributes; rerooting turns the edges that
    leave the node around. *)
Fixpoint peel (fuel : nat) (edges : list (string * string)) : bool :=
  match fuel with
  | O => df_empty edges
  | S fuel => peel fuel (filter (λ e, e.1 ∈ edges.*2) edges)
  end.

Definition edge_list_graph : Graph (list (string * string)) := {|
  is_directed_acyclic_graph edges := peel (length edges) edges;
  default_config :=
    [ ("calendar.txt", "trips.txt"); ("calendar_dates.txt", "trips.txt");
      ("routes.txt", "trips.txt"); ("stop_times.txt", "trips.txt");
      ("stops.txt", "stop_times.txt") ];
  empty_config := [];
  reroot_graph edges node :=
    (λ e, if decide (e.1 = node) then (e.2, e.1) else e) <$> edges;
  remove_node_attributes edges _ := edges
|}.

(** Two tables that depend on each other. *)
Definition cyclic_config : list (string * string) :=
  [ ("trips.txt", "routes.txt"); ("routes.txt", "trips.txt") ].

(** A file system on which no path exists. *)
Definition nothing_exists (X : Type) (e : fsE X) (s : unit) : X * unit :=
  match e in fsE X return X * unit with
  | IsDir _ => (false, s)
  | IsFile _ => (false, s)
  | Mkdtemp => ("/tmp/tmp0", s)
  | UnpackArchive _ _ => (Some "ReadError", s)
  | FeedInit _ => (Some "ValueError", s)
  | Finalize _ => ((), s)
  end.

(** A file system on which every path is a directory that a feed can be
    built over. *)
Definition all_directories (X : Type) (e : fsE X) (s : unit) : X * unit :=
  match e in fsE X return X * unit with
  | IsDir _ => (true, s)
  | IsFile _ => (false, s)
  | Mkdtemp => ("/tmp/tmp0", s)
  | UnpackArchive _ _ => (None, s)
  | FeedInit _ => (None, s)
  | Finalize _ => ((), s)
  end.

(** A file system on which every path is an archive that unpacks into a
    feed. *)
Definition all_archives (X : Type) (e : fsE X) (s : unit) : X * unit :=
  match e in fsE X return X * unit with
  | IsDir _ => (false, s)
  | IsFile _ => (true, s)
  | Mkdtemp => ("/tmp/tmp0", s)
  | UnpackArchive _ _ => (None, s)
  | FeedInit _ => (None, s)
  | Finalize _ => ((), s)
  end.

(** ** The cells the code parses *)

Section parsed_cells.
Context `{Parsers}.

(** A weekly-pattern row of a referenced service has a date cell that
    [parse_date] rejects. *)
Definition unparsable_calendar_row (feed : Feed) : Prop :=
  ∃ cal,
    cal ∈ calendar feed ∧ referenced feed (cal_service_id cal) ∧
    (parse_date (cal_start_date cal) = None ∨ parse_date (cal_end_date cal) = None).

(** A weekly-pattern row of a referenced service covers a date whose
    weekday flag [int] rejects. *)
Definition unparsable_flag (feed : Feed) : Prop :=
  ∃ cal start end_ date,
    cal ∈ calendar feed ∧ referenced feed (cal_service_id cal) ∧
    parse_date (cal_start_date cal) = Some start ∧
    parse_date (cal_end_date cal) = Some end_ ∧
    start ≤ date ≤ end_ ∧ int (weekday_flag cal (weekday date)) = None.

(** An exception row of a referenced service, of whatever exception type,
    has a date cell that [parse_date] rejects. *)
Definition unparsable_exception_row (feed : Feed) : Prop :=
  ∃ cd,
    cd ∈ calendar_dates feed ∧ referenced feed (cd_service_id cd) ∧
    parse_date (cd_date cd) = None.

(** Two feeds whose three tables hold the same rows, in whatever order and
    however often. *)
Definition same_rows (feed feed' : Feed) : Prop :=
  (∀ t, t ∈ trips feed ↔ t ∈ trips feed') ∧
  (∀ cal, cal ∈ calendar feed ↔ cal ∈ calendar feed') ∧
  (∀ cd, cd ∈ calendar_dates feed ↔ cd ∈ calendar_dates feed').

End parsed_cells.

(** The trip counts of a set of dates, summed. *)
Definition total_count (counts : gmap Z Z) (dates : gset Z) : Z :=
  foldr Z.add 0 ((λ date, getdefault 0 counts date) <$> elements dates).

(** A call as an entry of the list of calls that [run] returns. *)
Definition call_of {X : Type} (e : fsE X) : {X : Type & fsE X} := existT X e.

(** ** The feed object, read back *)

Section feed_object.
Context {DiGraph ColumnFilter : Type} `{Graph DiGraph}.

(** The views of the layers of a feed object, the innermost first. *)
Fixpoint views (feed : @FeedObject DiGraph ColumnFilter)
  : list (list (string * ColumnFilter)) :=
  match feed with
  | FeedOverPath _ view _ _ => [view]
  | FeedOverFeed source view _ _ => (views source ++ [view])%list
  end.

(** The graphs of the layers of a feed object, the innermost first. *)
Fixpoint configs (feed : @FeedObject DiGraph ColumnFilter) : list DiGraph :=
  match feed with
  | FeedOverPath _ _ config _ => [config]
  | FeedOverFeed source _ config _ => (configs source ++ [config])%list
  end.

(** The directory the innermost layer reads. *)
Fixpoint source_path (feed : @FeedObject DiGraph ColumnFilter) : string :=
  match feed with
  | FeedOverPath path _ _ _ => path
  | FeedOverFeed source _ _ _ => source_path source
  end.

(** [feed._delete_after_reading] *)
Definition delete_after_reading (feed : @FeedObject DiGraph ColumnFilter) : bool :=
  match feed with
  | FeedOverPath _ _ _ flag => flag
  | FeedOverFeed _ _ _ flag => flag
  end.

(** The graphs [_load_feed] reroots through: the graph after each filename. *)
Fixpoint rerooted (config : DiGraph) (filenames : list string) : list DiGraph :=
  match filenames with
  | [] => []
  | filename :: filenames =>
      reroot_graph config filename :: rerooted (reroot_graph config filename) filenames
  end.

(** ** The read functions

    Each read function loads a raw feed and applies one query to it.  The
    table accessors of the loaded feed belong to [gtfs.Feed]; they are the
    parameter [tables]. *)

Context `{Parsers}.
Variable tables : @FeedObject DiGraph ColumnFilter → Feed.

Definition read_busiest_date (path : string) : io (Z * gset string) :=
  feed ← load_raw_feed path; Ret (_busiest_date (tables feed)).

Definition read_busiest_week (path : string) : io (gmap Z (gset string)) :=
  feed ← load_raw_feed path; Ret (_busiest_week (tables feed)).

Definition read_service_ids_by_date (path : string) : io (gmap Z (gset string)) :=
  feed ← load_raw_feed path; Ret (_service_ids_by_date (tables feed)).

Definition read_dates_by_service_ids (path : string)
  : io (gmap (gset string) (gset Z)) :=
  feed ← load_raw_feed path; Ret (_dates_by_service_ids (tables feed)).

Definition read_trip_counts_by_date (path : string) : io (gmap Z Z) :=
  feed ← load_raw_feed path; Ret (_trip_counts_by_date (tables feed)).

End feed_object.

(** * Properties *)

(** ** The result monad and its loops *)

Lemma bind_inr {A B : Type} (m : result A) (k : A → result B) (y : B) :
  (x ← m; k x) = inr y ↔ ∃ x, m = inr x ∧ k x = inr y.
Proof.
  destruct m as [e|x]; simpl.
  - split; [discriminate | intros (x & Hx & _); discriminate].
  - split; [eauto | intros (x' & [= <-] & Hk); exact Hk].
Qed.

Lemma bind_inl {A B : Type} (m : result A) (k : A → result B) (e : exn) :
  (x ← m; k x) = inl e ↔ m = inl e ∨ ∃ x, m = inr x ∧ k x = inl e.
Proof.
  destruct m as [e'|x]; simpl.
  - split; [intros [= ->]; by left | intros [[= ->] | (x & Hx & _)]; done].
  - split; [eauto | intros [Hx | (x' & [= <-] & Hk)]; done].
Qed.

Lemma parsed_inr {A : Type} (o : option A) (x : A) : parsed o = inr x ↔ o = Some x.
Proof. unfold parsed. destruct o; cbn; split; intros [=]; by subst. Qed.

Lemma parsed_inl {A : Type} (o : option A) (e : exn) :
  parsed o = inl e → e = parse_error.
Proof. unfold parsed. destruct o; cbn; intros [=]; by subst. Qed.

Lemma map_each_inr {A B : Type} (f : A → result B) (l : list A) (ys : list B) :
  map_each f l = inr ys ↔ Forall2 (λ x y, f x = inr y) l ys.
Proof.
  revert ys. induction l as [|x l IH]; intros ys; simpl.
  - split; [intros [= <-]; constructor | by inversion 1].
  - rewrite bind_inr. split.
    + intros (y & Hy & Hrest). apply bind_inr in Hrest as (ys' & Hys' & [= <-]).
      constructor; [done | by apply IH].
    + inversion 1 as [|? y ? ys' Hy Hys']; subst. exists y. split; [done|].
      apply bind_inr. exists ys'. split; [by apply IH | done].
Qed.

Lemma map_each_inl {A B : Type} (f : A → result B) (l : list A) (e : exn) :
  map_each f l = inl e → ∃ x, x ∈ l ∧ f x = inl e.
Proof.
  induction l as [|x l IH]; simpl; [discriminate|].
  intros [Hx | (y & Hy & Hrest)]%bind_inl.
  - exists x. split; [left | done].
  - apply bind_inl in Hrest as [Hrest | (ys & _ & ?)]; [|done].
    destruct (IH Hrest) as (x' & Hin & Hx'). exists x'. split; [by right | done].
Qed.

Lemma map_each_fails {A B : Type} (f : A → result B) (l : list A) (x : A) (e : exn) :
  x ∈ l → f x = inl e → ∃ e', map_each f l = inl e'.
Proof.
  intros Hin Hx. induction Hin as [x l | x y l Hin IH]; simpl.
  - rewrite Hx. by eexists.
  - destruct (f y) as [e'|z]; simpl; [by eexists|].
    destruct (IH Hx) as (e' & ->). by eexists.
Qed.

(** What a loop that returns has established: an invariant [I] carried
    from the items already seen to one more item. *)
Lemma for_each_inv {A S : Type} (body : A → S → result S)
    (I : list A → S → Prop) (l : list A) (s s' : S) :
  I [] s →
  (∀ seen x s s', I seen s → x ∈ l → body x s = inr s' → I (seen ++ [x])%list s') →
  for_each body l s = inr s' → I l s'.
Proof.
  intros Hinit Hstep.
  assert (∀ seen rest s, (seen ++ rest)%list = l → I seen s →
    for_each body rest s = inr s' → I l s') as Hgen.
  { intros seen rest. revert seen. induction rest as [|x rest IH]; intros seen s0 Heq HI; simpl.
    - intros [= <-]. rewrite app_nil_r in Heq. by subst.
    - intros (s1 & Hx & Hrest)%bind_inr.
      apply (IH (seen ++ [x])%list s1); [by rewrite <- app_assoc | | done].
      apply (Hstep seen x s0 s1); [done | | done].
      subst l. apply elem_of_app. right. left. }
  by apply (Hgen [] l s).
Qed.

Lemma for_each_inl {A S : Type} (body : A → S → result S) (l : list A) (s : S)
    (e : exn) :
  for_each body l s = inl e → ∃ x s0, x ∈ l ∧ body x s0 = inl e.
Proof.
  revert s. induction l as [|x l IH]; intros s; simpl; [discriminate|].
  intros [Hx | (s' & _ & Hrest)]%bind_inl.
  - exists x, s. split; [left | done].
  - destruct (IH _ Hrest) as (y & s0 & Hy & Hbody). exists y, s0.
    split; [by right | done].
Qed.

(** ** Dictionaries of sets *)

Section dict_facts.
Context {K X : Type} `{Countable K} `{Countable X}.
Implicit Types (d : gmap K (gset X)) (k : K) (x y : X).

Lemma getdefault_insert {V : Type} (dflt v : V) (m : gmap K V) k k' :
  getdefault dflt (<[k := v]> m) k' = if decide (k = k') then v else getdefault dflt m k'.
Proof. unfold getdefault. rewrite lookup_insert. by case_decide. Qed.

Lemma elem_of_add_to d k k' x y :
  y ∈ getdefault ∅ (add_to k x d) k' ↔ (k' = k ∧ y = x) ∨ y ∈ getdefault ∅ d k'.
Proof.
  unfold add_to. rewrite getdefault_insert. case_decide as Hk.
  - subst k'. set_solver.
  - split; [by right | intros [[? _] | ?]; [congruence | done]].
Qed.

Lemma nonempty_values_empty : nonempty_values (∅ : gmap K (gset X)).
Proof. intros k s. by rewrite lookup_empty. Qed.

Lemma nonempty_values_add_to d k x :
  nonempty_values d → nonempty_values (add_to k x d).
Proof.
  intros Hd k' s. unfold add_to. rewrite lookup_insert. case_decide.
  - intros [= <-]. set_solver.
  - apply Hd.
Qed.

Lemma elem_of_foldl_add_to {A : Type} (f : A → K) (g : A → X) (l : list A) d k y :
  y ∈ getdefault ∅ (foldl (λ d a, add_to (f a) (g a) d) d l) k ↔
  y ∈ getdefault ∅ d k ∨ ∃ a, a ∈ l ∧ f a = k ∧ g a = y.
Proof.
  revert d. induction l as [|a l IH]; intros d; simpl.
  - split; [by left | intros [? | (a & Ha & _)]; [done | by inversion Ha]].
  - rewrite IH, elem_of_add_to. split.
    + intros [[[-> ->] | ?] | (a' & Ha' & ?)].
      * right. exists a. split; [left | done].
      * by left.
      * right. exists a'. split; [by right | done].
    + intros [? | (a' & Ha' & Hf & Hg)]; [by left; right|].
      apply elem_of_cons in Ha' as [-> | Ha'].
      * left. left. by subst.
      * right. by exists a'.
Qed.

Lemma nonempty_values_foldl_add_to {A : Type} (f : A → K) (g : A → X) (l : list A) d :
  nonempty_values d → nonempty_values (foldl (λ d a, add_to (f a) (g a) d) d l).
Proof.
  revert d. induction l as [|a l IH]; intros d Hd; simpl; [done|].
  apply IH. by apply nonempty_values_add_to.
Qed.

(** A mapping with non-empty values is determined by its memberships. *)
Lemma nonempty_values_ext d d' :
  nonempty_values d → nonempty_values d' →
  (∀ k x, x ∈ getdefault ∅ d k ↔ x ∈ getdefault ∅ d' k) → d = d'.
Proof.
  intros Hd Hd' Hext. apply map_eq. intros k.
  specialize (Hext k). unfold getdefault in Hext.
  destruct (d !! k) as [s|] eqn:Hs, (d' !! k) as [s'|] eqn:Hs'; simpl in Hext.
  - f_equal. apply set_eq. exact Hext.
  - apply Hd in Hs. apply set_choose_L in Hs as [x Hx].
    apply Hext in Hx. set_solver.
  - apply Hd' in Hs'. apply set_choose_L in Hs' as [x Hx].
    apply Hext in Hx. set_solver.
  - done.
Qed.

End dict_facts.

(** ** The weekly pattern (lines 170-184) *)

Section calendar_facts.
Context `{Parsers}.
Implicit Types (results : gmap Z (gset string)) (cal : CalendarRow).

Lemma weekday_range (date : Z) : 0 ≤ weekday date < 7.
Proof. unfold weekday. apply Z.mod_pos_bound. lia. Qed.

(** [dow] reads the column [DAY_NAMES] lists at the weekday's index. *)
Lemma dow_weekday cal (date : Z) :
  dow cal (weekday date) = inr (weekday_flag cal (weekday date)).
Proof.
  pose proof (weekday_range date) as Hr.
  assert (weekday date = 0 ∨ weekday date = 1 ∨ weekday date = 2 ∨
          weekday date = 3 ∨ weekday date = 4 ∨ weekday date = 5 ∨
          weekday date = 6) as Hcases by lia.
  destruct Hcases as [-> | [-> | [-> | [-> | [-> | [-> | ->]]]]]]; reflexivity.
Qed.

Lemma referenced_trip_service_ids (feed : Feed) (service_id : string) :
  service_id ∈ trip_service_ids feed ↔ referenced feed service_id.
Proof.
  unfold trip_service_ids, referenced.
  rewrite elem_of_list_to_set, list_elem_of_fmap. naive_solver.
Qed.

Lemma elem_of_applicable_calendar (feed : Feed) cal :
  cal ∈ applicable_calendar feed ↔
  cal ∈ calendar feed ∧ referenced feed (cal_service_id cal).
Proof.
  unfold applicable_calendar. destruct (calendar feed) as [|c l] eqn:Hl; simpl.
  - split; [by inversion 1 | intros [Hin _]; by inversion Hin].
  - rewrite list_elem_of_filter, referenced_trip_service_ids. tauto.
Qed.

Lemma elem_of_applicable_caldates (feed : Feed) (cd : CalendarDatesRow) :
  cd ∈ applicable_caldates feed ↔
  cd ∈ calendar_dates feed ∧ referenced feed (cd_service_id cd).
Proof.
  unfold applicable_caldates. destruct (calendar_dates feed) as [|c l] eqn:Hl; simpl.
  - split; [by inversion 1 | intros [Hin _]; by inversion Hin].
  - rewrite list_elem_of_filter, referenced_trip_service_ids. tauto.
Qed.

Lemma elem_of_map_each {A B : Type} (f : A → result B) (l : list A) (ys : list B) (y : B) :
  map_each f l = inr ys → y ∈ ys ↔ ∃ x, x ∈ l ∧ f x = inr y.
Proof.
  rewrite map_each_inr. induction 1 as [|x y' l ys Hxy Hrest IH].
  - split; [by inversion 1 | intros (x & Hx & _); by inversion Hx].
  - rewrite elem_of_cons, IH. split.
    + intros [-> | (x' & Hx' & Hf)].
      * exists x. split; [left | done].
      * exists x'. split; [by right | done].
    + intros (x' & [-> | Hx']%elem_of_cons & Hf).
      * left. congruence.
      * right. by exists x'.
Qed.

Lemma elem_of_parse_calendar (l : list CalendarRow) rows cal (start end_ : Z) :
  parse_calendar l = inr rows →
  (cal, start, end_) ∈ rows ↔
  cal ∈ l ∧ parse_date (cal_start_date cal) = Some start ∧
  parse_date (cal_end_date cal) = Some end_.
Proof.
  intros Hrows. unfold parse_calendar in Hrows.
  rewrite (elem_of_map_each _ _ _ _ Hrows). split.
  - intros (x & Hx & Hf). apply bind_inr in Hf as (s & Hs%parsed_inr & Hf).
    apply bind_inr in Hf as (e & He%parsed_inr & [= -> -> ->]). done.
  - intros (Hin & Hs & He). exists cal. split; [done|].
    rewrite Hs, He. reflexivity.
Qed.

Lemma elem_of_parse_caldates (l : list CalendarDatesRow) rows
    (cd : CalendarDatesRow) (date : Z) :
  parse_caldates l = inr rows →
  (cd, date) ∈ rows ↔ cd ∈ l ∧ parse_date (cd_date cd) = Some date.
Proof.
  intros Hrows. unfold parse_caldates in Hrows.
  rewrite (elem_of_map_each _ _ _ _ Hrows). split.
  - intros (x & Hx & Hf). apply bind_inr in Hf as (d & Hd%parsed_inr & [= -> ->]). done.
  - intros (Hin & Hd). exists cd. split; [done|]. rewrite Hd. reflexivity.
Qed.

Lemma calendar_day_inr cal (ordinal : Z) results results' :
  calendar_day cal ordinal results = inr results' →
  (∀ date service_id,
     active results' date service_id ↔
     active results date service_id ∨
     (date = ordinal ∧ service_id = cal_service_id cal ∧ flag_set cal ordinal)) ∧
  (nonempty_values results → nonempty_values results').
Proof.
  unfold calendar_day. rewrite dow_weekday. simpl.
  intros (n & Hn%parsed_inr & Hres)%bind_inr.
  case_decide as Hnz; injection Hres as <-.
  - split; [|apply nonempty_values_add_to].
    intros date service_id. unfold active. rewrite elem_of_add_to.
    unfold flag_set. naive_solver.
  - split; [|done]. intros date service_id. split; [by left|].
    intros [? | (_ & _ & n' & Hn' & Hnz')]; [done|].
    rewrite Hn in Hn'. injection Hn' as <-. lia.
Qed.

Lemma calendar_row_inr cal (start end_ : Z) results results' :
  calendar_row (cal, start, end_) results = inr results' →
  (∀ date service_id,
     active results' date service_id ↔
     active results date service_id ∨
     (service_id = cal_service_id cal ∧ start ≤ date ≤ end_ ∧ flag_set cal date)) ∧
  (nonempty_values results → nonempty_values results').
Proof.
  unfold calendar_row. intros Hloop.
  apply (for_each_inv _ (λ seen r,
    (∀ date service_id,
       active r date service_id ↔
       active results date service_id ∨
       (service_id = cal_service_id cal ∧ date ∈ seen ∧ flag_set cal date)) ∧
    (nonempty_values results → nonempty_values r))) in Hloop.
  - destruct Hloop as [Hmem Hne]. split; [|done].
    intros date service_id. rewrite Hmem, elem_of_seqZ.
    split; (intros [? | (? & ? & ?)]; [by left | right; split; [done | split; [lia | done]]]).
  - split; [|done]. intros date service_id. split; [by left|].
    intros [? | (_ & Hin & _)]; [done | by inversion Hin].
  - intros seen x r r' [Hmem Hne] _ Hday.
    apply calendar_day_inr in Hday as [Hmem' Hne']. split; [|by auto].
    intros date service_id. rewrite Hmem', Hmem, elem_of_app, list_elem_of_singleton.
    naive_solver.
Qed.

Lemma calendar_rows_inr (rows : list (CalendarRow * Z * Z)) results results' :
  for_each calendar_row rows results = inr results' →
  (∀ date service_id,
     active results' date service_id ↔
     active results date service_id ∨
     ∃ cal start end_, (cal, start, end_) ∈ rows ∧
       service_id = cal_service_id cal ∧ start ≤ date ≤ end_ ∧ flag_set cal date) ∧
  (nonempty_values results → nonempty_values results').
Proof.
  intros Hloop.
  apply (for_each_inv _ (λ seen r,
    (∀ date service_id,
       active r date service_id ↔
       active results date service_id ∨
       ∃ cal start end_, (cal, start, end_) ∈ seen ∧
         service_id = cal_service_id cal ∧ start ≤ date ≤ end_ ∧ flag_set cal date) ∧
    (nonempty_values results → nonempty_values r))) in Hloop; [done | |].
  - split; [|done]. intros date service_id. split; [by left|].
    intros [? | (? & ? & ? & Hin & _)]; [done | by inversion Hin].
  - intros seen [[cal start] end_] r r' [Hmem Hne] _ Hrow.
    apply calendar_row_inr in Hrow as [Hmem' Hne']. split; [|by auto].
    intros date service_id. rewrite Hmem', Hmem. split.
    + intros [[? | (c & s & e & Hin & ?)] | (-> & ? & ?)].
      * by left.
      * right. exists c, s, e. split; [apply elem_of_app; by left | done].
      * right. exists cal, start, end_.
        split; [apply elem_of_app; right; by left | done].
    + intros [? | (c & s & e & [Hin | Hin%list_elem_of_singleton]%elem_of_app & Hrest)].
      * by left; left.
      * left; right. by exists c, s, e.
      * injection Hin as -> -> ->. right. tauto.
Qed.

(** The weekly pattern's contribution, on the tables of the feed. *)
Lemma calendar_block_inr (feed : Feed) results :
  calendar_block (applicable_calendar feed) ∅ = inr results →
  (∀ date service_id,
     active results date service_id ↔ calendar_adds feed date service_id) ∧
  nonempty_values results.
Proof.
  unfold calendar_block. intros Hblock.
  assert (∃ rows, parse_calendar (applicable_calendar feed) = inr rows ∧
            for_each calendar_row rows ∅ = inr results) as (rows & Hrows & Hloop).
  { destruct (applicable_calendar feed) as [|c l]; simpl in Hblock.
    - injection Hblock as <-. by exists [].
    - by apply bind_inr in Hblock. }
  apply calendar_rows_inr in Hloop as [Hmem Hne].
  split; [|apply Hne, nonempty_values_empty].
  intros date service_id. rewrite Hmem. unfold calendar_adds. split.
  - intros [Hempty | (cal & start & end_ & Hin & -> & Hrange & Hflag)].
    + unfold active, getdefault in Hempty. rewrite lookup_empty in Hempty. set_solver.
    + apply (elem_of_parse_calendar _ _ _ _ _ Hrows) in Hin as (Hin & Hs & He).
      apply elem_of_applicable_calendar in Hin as [Hin Href].
      exists cal, start, end_. done.
  - intros (cal & start & end_ & Hin & <- & Href & Hs & He & Hrange & Hflag).
    right. exists cal, start, end_. split; [|done].
    apply (elem_of_parse_calendar _ _ _ _ _ Hrows).
    split; [by apply elem_of_applicable_calendar | done].
Qed.

End calendar_facts.

(** ** The exception table (lines 186-210) *)

Section caldates_facts.
Context `{Parsers}.
Implicit Types (results : gmap Z (gset string)) (date : Z) (service_id : string).

Lemma remove_service_lookup results date service_id (d : Z) :
  remove_service date service_id results !! d =
  if decide (d = date)
  then Some (getdefault ∅ results date ∖ {[service_id]})
  else results !! d.
Proof.
  unfold remove_service, touch, getdefault.
  destruct (results !! date) as [s|] eqn:Hs; simpl.
  - rewrite Hs. simpl. repeat case_decide; subst.
    + by rewrite lookup_insert_eq.
    + by rewrite lookup_insert_ne.
    + rewrite Hs. f_equal. set_solver.
    + done.
  - rewrite lookup_insert_eq. simpl.
    rewrite decide_False by set_solver.
    case_decide; subst.
    + rewrite lookup_insert_eq. f_equal. set_solver.
    + by rewrite lookup_insert_ne.
Qed.

Lemma remove_services_lookup results date (l : list string) :
  let results' :=
    foldl (λ results service_id, remove_service date service_id results) results l in
  getdefault ∅ results' date = getdefault ∅ results date ∖ list_to_set l ∧
  ∀ d, d ≠ date → results' !! d = results !! d.
Proof.
  revert results. induction l as [|x l IH]; intros results; simpl.
  - split; [set_solver | done].
  - destruct (IH (remove_service date x results)) as [Hdate Hother]. split.
    + rewrite Hdate. unfold getdefault at 1.
      rewrite remove_service_lookup, decide_True by done. simpl. set_solver.
    + intros d Hd. rewrite Hother by done.
      rewrite remove_service_lookup. by rewrite decide_False.
Qed.

Lemma drop_if_empty_lookup results date (d : Z) :
  drop_if_empty date results !! d =
  if decide (d = date)
  then (if decide (getdefault ∅ results date = ∅) then None
        else Some (getdefault ∅ results date))
  else results !! d.
Proof.
  unfold drop_if_empty, touch, getdefault.
  destruct (results !! date) as [s|] eqn:Hs; simpl.
  - rewrite Hs. simpl. destruct (decide (size s = 0%nat)) as [Hsz|Hsz].
    + apply size_empty_iff, leibniz_equiv in Hsz. subst s.
      destruct (decide (d = date)) as [->|Hd].
      * rewrite lookup_delete_eq. by rewrite decide_True.
      * by rewrite lookup_delete_ne.
    + destruct (decide (d = date)) as [->|Hd]; [|done].
      rewrite decide_False; [done|]. intros ->. by rewrite size_empty in Hsz.
  - rewrite lookup_insert_eq. cbn [default]. rewrite size_empty.
    rewrite decide_True by done.
    destruct (decide (d = date)) as [->|Hd].
    + rewrite lookup_delete_eq. by rewrite decide_True.
    + rewrite lookup_delete_ne, lookup_insert_ne by done. done.
Qed.

Lemma process_removal_lookup results date (service_ids : gset string) (d : Z) :
  process_removal results (date, service_ids) !! d =
  if decide (d = date)
  then (if decide (getdefault ∅ results date ∖ service_ids = ∅) then None
        else Some (getdefault ∅ results date ∖ service_ids))
  else results !! d.
Proof.
  unfold process_removal.
  destruct (remove_services_lookup results date (elements service_ids)) as [Hdate Hother].
  rewrite drop_if_empty_lookup, Hdate, list_to_set_elements_L.
  case_decide; [done | by apply Hother].
Qed.

Lemma process_removal_active results date (service_ids : gset string) (d : Z) service_id :
  active (process_removal results (date, service_ids)) d service_id ↔
  active results d service_id ∧ (d = date → service_id ∉ service_ids).
Proof.
  unfold active. unfold getdefault at 1. rewrite process_removal_lookup.
  case_decide as Hd.
  - subst d. case_decide as Hempty; simpl; set_solver.
  - unfold getdefault. tauto.
Qed.

Lemma process_removal_nonempty results (item : Z * gset string) :
  nonempty_values results → nonempty_values (process_removal results item).
Proof.
  destruct item as [date service_ids]. intros Hne d s.
  rewrite process_removal_lookup. repeat case_decide; try done.
  - by intros [= <-].
  - apply Hne.
Qed.

Lemma process_removals_active (l : list (Z * gset string)) results (d : Z) service_id :
  active (foldl process_removal results l) d service_id ↔
  active results d service_id ∧ ∀ service_ids, (d, service_ids) ∈ l → service_id ∉ service_ids.
Proof.
  revert results. induction l as [|[date sids] l IH]; intros results; cbn [foldl].
  - split; [intros ?; split; [done | by inversion 1] | tauto].
  - rewrite IH, process_removal_active. split.
    + intros [[Hact Hhere] Hrest]. split; [done|].
      intros s [[= <- <-] | Hin]%elem_of_cons; [by apply Hhere | by apply Hrest].
    + intros [Hact Hall]. split; [split; [done|] |].
      * intros ->. apply Hall. left.
      * intros s Hin. apply Hall. by right.
Qed.

Lemma process_removals_nonempty (l : list (Z * gset string)) results :
  nonempty_values results → nonempty_values (foldl process_removal results l).
Proof.
  revert results. induction l as [|item l IH]; intros results Hne; simpl; [done|].
  by apply IH, process_removal_nonempty.
Qed.

(** The exception rows, once parsed: additions join, removals win. *)
Lemma apply_caldates_active (caldates : list (CalendarDatesRow * Z)) results
    date service_id :
  active (apply_caldates caldates results) date service_id ↔
  (active results date service_id ∨
   ∃ cd, (cd, date) ∈ caldates ∧ cd_exception_type cd = "1" ∧
         cd_service_id cd = service_id) ∧
  ¬ ∃ cd, (cd, date) ∈ caldates ∧ cd_exception_type cd = "2" ∧
          cd_service_id cd = service_id.
Proof.
  unfold apply_caldates. rewrite process_removals_active.
  unfold active. rewrite (elem_of_foldl_add_to snd (λ cd, cd_service_id cd.1)).
  f_equiv.
  - f_equiv. split.
    + intros ([cd d] & [Ht Hin]%list_elem_of_filter & Hd & Hs). simpl in *. subst d.
      by exists cd.
    + intros (cd & Hin & Ht & Hs). exists (cd, date).
      split; [by apply list_elem_of_filter | done].
  - set (removals := foldl _ ∅ _).
    assert (∀ s, s ∈ getdefault ∅ removals date ↔
              ∃ cd, (cd, date) ∈ caldates ∧ cd_exception_type cd = "2" ∧
                    cd_service_id cd = s) as Hrem.
    { intros s. unfold removals.
      rewrite (elem_of_foldl_add_to snd (λ cd, cd_service_id cd.1)).
      unfold getdefault. rewrite lookup_empty. simpl. split.
      - intros [? | ([cd d] & [Ht Hin]%list_elem_of_filter & Hd & Hs)]; [set_solver|].
        simpl in *. subst d. by exists cd.
      - intros (cd & Hin & Ht & Hs). right. exists (cd, date).
        split; [by apply list_elem_of_filter | done]. }
    rewrite <- Hrem. split.
    + intros Hall Hin. unfold getdefault in Hin.
      destruct (removals !! date) as [sids|] eqn:Hsids; simpl in Hin; [|set_solver].
      apply (Hall sids); [by apply elem_of_map_to_list | done].
    + intros Hnot sids Hin%elem_of_map_to_list Hs. apply Hnot.
      unfold getdefault. by rewrite Hin.
Qed.

Lemma apply_caldates_nonempty (caldates : list (CalendarDatesRow * Z)) results :
  nonempty_values results → nonempty_values (apply_caldates caldates results).
Proof.
  intros Hne. unfold apply_caldates.
  apply process_removals_nonempty.
  by apply (nonempty_values_foldl_add_to snd (λ cd, cd_service_id cd.1)).
Qed.

Lemma caldates_block_rows (l : list CalendarDatesRow) results results' :
  caldates_block l results = inr results' →
  (∀ date service_id,
     active results' date service_id ↔
     (active results date service_id ∨
      ∃ cd, cd ∈ l ∧ cd_exception_type cd = "1" ∧
            cd_service_id cd = service_id ∧ parse_date (cd_date cd) = Some date) ∧
     ¬ ∃ cd, cd ∈ l ∧ cd_exception_type cd = "2" ∧
             cd_service_id cd = service_id ∧ parse_date (cd_date cd) = Some date) ∧
  (nonempty_values results → nonempty_values results').
Proof.
  unfold caldates_block. intros Hblock.
  destruct l as [|c l]; simpl in Hblock.
  - injection Hblock as <-. split; [|done].
    intros date service_id. split.
    + intros Hact. split; [by left|]. intros (cd & Hin & _). by inversion Hin.
    + intros [[? | (cd & Hin & _)] _]; [done | by inversion Hin].
  - apply bind_inr in Hblock as (rows & Hrows & [= <-]).
    split; [|apply apply_caldates_nonempty].
    intros date service_id. rewrite apply_caldates_active.
    assert (∀ type,
      (∃ cd, (cd, date) ∈ rows ∧ cd_exception_type cd = type ∧
             cd_service_id cd = service_id) ↔
      (∃ cd, cd ∈ c :: l ∧ cd_exception_type cd = type ∧
             cd_service_id cd = service_id ∧
             parse_date (cd_date cd) = Some date)) as Hrow.
    { intros type. split.
      - intros (cd & Hin & Ht & Hs).
        apply (elem_of_parse_caldates _ _ _ _ Hrows) in Hin as [Hin Hd].
        by exists cd.
      - intros (cd & Hin & Ht & Hs & Hd). exists cd. split; [|done].
        by apply (elem_of_parse_caldates _ _ _ _ Hrows). }
    by rewrite !Hrow.
Qed.

Lemma caldates_block_inr (feed : Feed) results results' :
  caldates_block (applicable_caldates feed) results = inr results' →
  (∀ date service_id,
     active results' date service_id ↔
     (active results date service_id ∨ exception_adds feed date service_id) ∧
     ¬ exception_removes feed date service_id) ∧
  (nonempty_values results → nonempty_values results').
Proof.
  intros [Hmem Hne]%caldates_block_rows. split; [|done].
  assert (∀ type date service_id,
    (∃ cd, cd ∈ applicable_caldates feed ∧ cd_exception_type cd = type ∧
           cd_service_id cd = service_id ∧ parse_date (cd_date cd) = Some date) ↔
    exception_row type feed date service_id) as Hrow.
  { intros type date service_id. unfold exception_row. split.
    - intros (cd & [Hin Href]%elem_of_applicable_caldates & Ht & Hs & Hd).
      exists cd. by subst.
    - intros (cd & Hin & Hs & Href & Ht & Hd). exists cd.
      split; [apply elem_of_applicable_caldates; by subst | done]. }
  intros date service_id. rewrite Hmem. unfold exception_adds, exception_removes.
  by rewrite !Hrow.
Qed.

(** A failing exception block fails in a cell parser, on some row. *)
Lemma caldates_block_inl (l : list CalendarDatesRow) results (e : exn) :
  caldates_block l results = inl e →
  e = parse_error ∧ ∃ cd, cd ∈ l ∧ parse_date (cd_date cd) = None.
Proof.
  unfold caldates_block. destruct l as [|c l]; simpl; [discriminate|].
  intros [Hrows | (rows & _ & ?)]%bind_inl; [|done].
  apply map_each_inl in Hrows as (cd & Hin & Hcd).
  apply bind_inl in Hcd as [Hcd | (d & _ & ?)]; [|done].
  split; [by apply parsed_inl in Hcd|]. exists cd. split; [done|].
  by destruct (parse_date (cd_date cd)).
Qed.

Lemma caldates_block_fails (l : list CalendarDatesRow) results (cd : CalendarDatesRow) :
  cd ∈ l → parse_date (cd_date cd) = None →
  caldates_block l results = inl parse_error.
Proof.
  intros Hin Hcd.
  destruct (caldates_block l results) as [e|r] eqn:Hblock.
  - by apply caldates_block_inl in Hblock as [-> _].
  - exfalso. unfold caldates_block in Hblock.
    destruct l as [|c l]; [by inversion Hin|]. simpl in Hblock.
    apply bind_inr in Hblock as (rows & Hrows & _).
    destruct (map_each_fails
      (λ cd, date ← parsed (parse_date (cd_date cd)); mret (cd, date))
      (c :: l) cd parse_error Hin) as (e' & He').
    { by rewrite Hcd. }
    unfold parse_caldates in Hrows. rewrite He' in Hrows. discriminate.
Qed.

(** The exception block does not depend on the order of its rows. *)
Lemma caldates_block_perm (l l' : list CalendarDatesRow) results :
  l ≡ₚ l' → nonempty_values results →
  caldates_block l results = caldates_block l' results.
Proof.
  intros Hperm Hne.
  destruct (caldates_block l results) as [e|r] eqn:Hl.
  - apply caldates_block_inl in Hl as (-> & cd & Hin & Hcd).
    symmetry. apply (caldates_block_fails _ _ cd); [by rewrite <- Hperm | done].
  - destruct (caldates_block l' results) as [e'|r'] eqn:Hl'.
    + apply caldates_block_inl in Hl' as (-> & cd & Hin & Hcd).
      rewrite (caldates_block_fails l results cd) in Hl; [done | by rewrite Hperm | done].
    + f_equal.
      apply caldates_block_rows in Hl as [Hmem Hr], Hl' as [Hmem' Hr'].
      apply nonempty_values_ext; [by auto | by auto |].
      intros date service_id. fold (active r date service_id).
      fold (active r' date service_id). rewrite Hmem, Hmem'.
      by setoid_rewrite Hperm.
Qed.

(** What [results] holds when the [assert] is reached. *)
Lemma accumulate_inr (feed : Feed) results :
  accumulate feed = inr results →
  (∀ date service_id,
     active results date service_id ↔
     (calendar_adds feed date service_id ∨ exception_adds feed date service_id) ∧
     ¬ exception_removes feed date service_id) ∧
  nonempty_values results.
Proof.
  unfold accumulate. intros (weekly & Hcal & Hcd)%bind_inr.
  apply calendar_block_inr in Hcal as [Hweekly Hne].
  apply caldates_block_inr in Hcd as [Hmem Hne'].
  split; [|by apply Hne'].
  intros date service_id. by rewrite Hmem, Hweekly.
Qed.

End caldates_facts.

(** ** _service_ids_by_date *)

Section service_ids_by_date_facts.
Context `{Parsers}.
Implicit Types (feed : Feed) (m results : gmap Z (gset string)).

Lemma calendar_block_inl (l : list CalendarRow) results (e : exn) :
  calendar_block l results = inl e → e = parse_error.
Proof.
  unfold calendar_block. destruct l as [|c l]; simpl; [discriminate|].
  intros [Hrows | (rows & _ & Hloop)]%bind_inl.
  - apply map_each_inl in Hrows as (cal & _ & Hcal).
    apply bind_inl in Hcal as [Hs | (s & _ & Hcal)]; [by apply parsed_inl in Hs|].
    apply bind_inl in Hcal as [He | (? & _ & ?)]; [by apply parsed_inl in He | done].
  - apply for_each_inl in Hloop as ([[cal start] end_] & r & _ & Hrow).
    apply for_each_inl in Hrow as (ordinal & r' & _ & Hday).
    unfold calendar_day in Hday. rewrite dow_weekday in Hday. simpl in Hday.
    apply bind_inl in Hday as [Hn | (n & _ & Hres)]; [by apply parsed_inl in Hn|].
    by case_decide.
Qed.

(** Before the [assert], only a cell parser can have raised. *)
Lemma accumulate_inl feed (e : exn) : accumulate feed = inl e → e = parse_error.
Proof.
  unfold accumulate.
  intros [Hcal | (weekly & _ & Hcd)]%bind_inl.
  - by apply calendar_block_inl in Hcal.
  - by apply caldates_block_inl in Hcd as [-> _].
Qed.

Lemma service_ids_by_date_inr feed m :
  _service_ids_by_date feed = inr m ↔ accumulate feed = inr m ∧ m ≠ ∅.
Proof.
  unfold _service_ids_by_date. rewrite bind_inr. split.
  - intros (results & Hacc & Hres). case_decide as Hsz; [done|].
    injection Hres as <-. split; [done|]. intros ->. by rewrite map_size_empty in Hsz.
  - intros [Hacc Hne]. exists m. split; [done|].
    rewrite decide_False; [done|]. by rewrite map_size_empty_iff.
Qed.

Lemma service_ids_by_date_active feed m :
  _service_ids_by_date feed = inr m →
  ∀ date service_id,
    active m date service_id ↔
    (calendar_adds feed date service_id ∨ exception_adds feed date service_id) ∧
    ¬ exception_removes feed date service_id.
Proof. intros [Hacc _]%service_ids_by_date_inr. by apply accumulate_inr in Hacc as [? _]. Qed.

Lemma service_ids_by_date_nonempty feed m :
  _service_ids_by_date feed = inr m → nonempty_values m.
Proof. intros [Hacc _]%service_ids_by_date_inr. by apply accumulate_inr in Hacc as [_ ?]. Qed.

(** Whatever the feed, the code before the [assert] either completes or
    raises the [ValueError] of a cell parser: the weekday lookup finds its
    column for every date, and nothing else there can raise. *)
Lemma accumulate_completes_or_parse_error feed :
  match accumulate feed with
  | inl e => e = parse_error
  | inr results => nonempty_values results
  end.
Proof.
  destruct (accumulate feed) as [e|results] eqn:Hacc.
  - by apply accumulate_inl in Hacc.
  - by apply accumulate_inr in Hacc as [_ ?].
Qed.

(** C1: the weekly-pattern table contributes exactly the pairs of
    [calendar_adds]: a service identifier referenced by some trip, on every
    date of a row's inclusive range whose weekday flag is set.  The mapping
    held after the weekly-pattern loop has those members and no other; in
    the mapping returned they are joined by the exception table's additions
    and cut by its removals; and a service identifier that no trip
    references is on no date. *)
Theorem service_ids_by_date_weekly_pattern feed m :
  _service_ids_by_date feed = inr m →
  (∃ weekly,
     calendar_block (applicable_calendar feed) ∅ = inr weekly ∧
     ∀ date service_id,
       active weekly date service_id ↔ calendar_adds feed date service_id) ∧
  (∀ date service_id,
     active m date service_id ↔
     (calendar_adds feed date service_id ∨ exception_adds feed date service_id) ∧
     ¬ exception_removes feed date service_id) ∧
  (∀ date service_id,
     ¬ referenced feed service_id →
     ¬ calendar_adds feed date service_id ∧ ¬ active m date service_id).
Proof.
  intros Hm. pose proof (service_ids_by_date_active feed m Hm) as Hact.
  apply service_ids_by_date_inr in Hm as [Hacc _].
  unfold accumulate in Hacc. apply bind_inr in Hacc as (weekly & Hcal & _).
  split; [|split; [done|]].
  - exists weekly. split; [done|]. by apply calendar_block_inr in Hcal as [? _].
  - intros date service_id Href.
    assert (¬ calendar_adds feed date service_id) as Hcal'.
    { intros (cal & start & end_ & _ & _ & Href' & _). done. }
    split; [done|]. rewrite Hact.
    intros [[? | (cd & _ & _ & Href' & _)] _]; done.
Qed.

(** C3: every value of the mapping returned is a non-empty set, and a date
    is a key exactly when some service stays active on it: a date left
    without service is absent, not mapped to the empty set. *)
Theorem service_ids_by_date_values_nonempty feed m :
  _service_ids_by_date feed = inr m →
  (∀ date service_ids, m !! date = Some service_ids → service_ids ≠ ∅) ∧
  (∀ date,
     is_Some (m !! date) ↔
     ∃ service_id,
       (calendar_adds feed date service_id ∨ exception_adds feed date service_id) ∧
       ¬ exception_removes feed date service_id).
Proof.
  intros Hm. pose proof (service_ids_by_date_active feed m Hm) as Hact.
  pose proof (service_ids_by_date_nonempty feed m Hm) as Hne.
  split; [exact Hne|]. intros date.
  setoid_rewrite <- Hact. unfold active, getdefault. split.
  - intros [s Hs]. rewrite Hs. simpl. apply set_choose_L. by apply (Hne date).
  - intros [service_id Hin]. destruct (m !! date); [by eexists | set_solver].
Qed.

(** C9: the function raises the assertion error exactly when the mapping
    accumulated from both tables is empty, that is when no date keeps a
    service; otherwise it returns that mapping, which is then not empty. *)
Theorem service_ids_by_date_no_service feed :
  (∀ m, _service_ids_by_date feed = inr m → m ≠ ∅) ∧
  (∀ msg, _service_ids_by_date feed = inl (AssertionError msg) ↔
          msg = "No service found in feed." ∧ accumulate feed = inr ∅) ∧
  (∀ results,
     accumulate feed = inr results →
     (results ≠ ∅ → _service_ids_by_date feed = inr results) ∧
     (results = ∅ ↔
      ¬ ∃ date service_id,
          (calendar_adds feed date service_id ∨ exception_adds feed date service_id) ∧
          ¬ exception_removes feed date service_id)).
Proof.
  split; [|split].
  - by intros m [_ ?]%service_ids_by_date_inr.
  - intros msg. unfold _service_ids_by_date. rewrite bind_inl. split.
    + intros [Hacc | (results & Hacc & Hres)].
      * by apply accumulate_inl in Hacc.
      * case_decide as Hsz; [|done]. apply map_size_empty_iff in Hsz.
        injection Hres as <-. by subst.
    + intros [-> Hacc]. right. exists ∅. split; [done|].
      by rewrite map_size_empty.
  - intros results Hacc. split.
    + intros Hne. by apply service_ids_by_date_inr.
    + apply accumulate_inr in Hacc as [Hact Hne].
      setoid_rewrite <- Hact. unfold active, getdefault. split.
      * intros -> (date & service_id & Hin). rewrite lookup_empty in Hin. set_solver.
      * intros Hnone. apply map_empty. intros date.
        destruct (results !! date) as [s|] eqn:Hs; [|done].
        exfalso. apply Hnone. pose proof (Hne date s Hs) as [x Hx]%set_choose_L.
        exists date, x. by rewrite Hs.
Qed.

(** C2: reordering the rows of the exception table changes neither the
    mapping returned nor the exception raised; removals are applied to the
    sum of all additions, so a pair that the table removes is absent from
    the result even when the table, or the weekly pattern, also adds it. *)
Theorem service_ids_by_date_exception_order feed (rows : list CalendarDatesRow) :
  rows ≡ₚ calendar_dates feed →
  _service_ids_by_date (with_calendar_dates feed rows) = _service_ids_by_date feed ∧
  ∀ m, _service_ids_by_date (with_calendar_dates feed rows) = inr m →
    ∀ date service_id,
      (active m date service_id ↔
       (calendar_adds feed date service_id ∨ exception_adds feed date service_id) ∧
       ¬ exception_removes feed date service_id) ∧
      (exception_removes feed date service_id → service_id ∉ getdefault ∅ m date).
Proof.
  intros Hperm.
  assert (_service_ids_by_date (with_calendar_dates feed rows)
          = _service_ids_by_date feed) as Heq.
  { unfold _service_ids_by_date. f_equal. unfold accumulate.
    assert (applicable_calendar (with_calendar_dates feed rows)
            = applicable_calendar feed) as -> by done.
    assert (applicable_caldates (with_calendar_dates feed rows)
            ≡ₚ applicable_caldates feed) as Hperm'.
    { unfold applicable_caldates, trip_service_ids. simpl.
      destruct rows as [|r rows].
      - apply Permutation_nil in Hperm. by rewrite Hperm.
      - destruct (calendar_dates feed) as [|c l].
        + symmetry in Hperm. by apply Permutation_nil in Hperm.
        + simpl. by rewrite Hperm. }
    destruct (calendar_block (applicable_calendar feed) ∅) as [e|weekly] eqn:Hcal;
      [done|]. simpl.
    apply caldates_block_perm; [done|].
    by apply calendar_block_inr in Hcal as [_ ?]. }
  split; [done|]. rewrite Heq. intros m Hm date service_id.
  pose proof (service_ids_by_date_active feed m Hm date service_id) as Hact.
  split; [done|]. intros Hrem Hin. apply Hact in Hin as [_ Hnot]. done.
Qed.

End service_ids_by_date_facts.

(** ** _dates_by_service_ids *)

Section dates_by_service_ids_facts.
Context `{Parsers}.
Implicit Types (feed : Feed) (m : gmap Z (gset string))
  (groups : gmap (gset string) (gset Z)).

Lemma elem_of_group_dates (l : list (Z * gset string)) groups
    (service_ids : gset string) (date : Z) :
  date ∈ getdefault ∅ (foldl group_date groups l) service_ids ↔
  date ∈ getdefault ∅ groups service_ids ∨ (date, service_ids) ∈ l.
Proof.
  revert groups. induction l as [|[d s] l IH]; intros groups; cbn [foldl].
  - split; [by left | intros [? | Hin]; [done | by inversion Hin]].
  - rewrite IH. unfold group_date. rewrite elem_of_add_to, elem_of_cons.
    split; [intros [[[-> ->] | ?] | ?] | intros [? | [[= -> ->] | ?]]]; tauto.
Qed.

Lemma nonempty_group_dates (l : list (Z * gset string)) groups :
  nonempty_values groups → nonempty_values (foldl group_date groups l).
Proof.
  revert groups. induction l as [|[d s] l IH]; intros groups Hne; cbn [foldl]; [done|].
  apply IH. unfold group_date. by apply nonempty_values_add_to.
Qed.

(** The grouping holds a date under a service set exactly when the
    mapping gives the date that set. *)
Lemma group_dates_spec m (service_ids : gset string) (date : Z) :
  date ∈ getdefault ∅ (foldl group_date ∅ (map_to_list m)) service_ids ↔
  m !! date = Some service_ids.
Proof.
  rewrite elem_of_group_dates, elem_of_map_to_list.
  unfold getdefault. rewrite lookup_empty. simpl. set_solver.
Qed.

Lemma group_dates_lookup m (service_ids : gset string) (dates : gset Z) :
  foldl group_date ∅ (map_to_list m) !! service_ids = Some dates ↔
  dates ≠ ∅ ∧ ∀ date, date ∈ dates ↔ m !! date = Some service_ids.
Proof.
  set (groups := foldl group_date ∅ (map_to_list m)).
  assert (nonempty_values groups) as Hne
    by apply nonempty_group_dates, nonempty_values_empty.
  pose proof (group_dates_spec m service_ids) as Hspec. fold groups in Hspec.
  unfold getdefault in Hspec. split.
  - intros Hg. rewrite Hg in Hspec. simpl in Hspec. split; [by apply (Hne service_ids)|done].
  - intros [Hdates Hmem]. destruct (groups !! service_ids) as [ds|] eqn:Hg; simpl in Hspec.
    + f_equal. apply set_eq. intros d. by rewrite Hspec, Hmem.
    + apply set_choose_L in Hdates as [d Hd]. apply Hmem, Hspec in Hd. set_solver.
Qed.

Lemma elem_of_expand_list groups (date : Z) (service_ids : gset string) :
  (date, service_ids) ∈
    mbind (M := list)
      (λ '(service_ids, dates), (λ date : Z, (date, service_ids)) <$> elements dates)
      (map_to_list groups) ↔
  ∃ dates, groups !! service_ids = Some dates ∧ date ∈ dates.
Proof.
  rewrite list_elem_of_bind. split.
  - intros ([s ds] & Hin & Hitem%elem_of_map_to_list).
    apply list_elem_of_fmap in Hin as (d & [= -> ->] & Hd%elem_of_elements).
    by exists ds.
  - intros (ds & Hg & Hd). exists (service_ids, ds).
    split; [|by apply elem_of_map_to_list].
    apply list_elem_of_fmap. exists date. split; [done | by apply elem_of_elements].
Qed.

Lemma expand_group_dates m : expand (foldl group_date ∅ (map_to_list m)) = m.
Proof.
  apply map_eq. intros date. unfold expand.
  set (groups := foldl group_date ∅ (map_to_list m)).
  assert (∀ s, (∃ dates, groups !! s = Some dates ∧ date ∈ dates) ↔ m !! date = Some s)
    as Hiff.
  { intros s. split.
    - intros (ds & Hg & Hd). apply group_dates_lookup in Hg as [_ Hmem]. by apply Hmem.
    - intros Hm. apply group_dates_spec in Hm. fold groups in Hm.
      unfold getdefault in Hm. destruct (groups !! s) as [ds|]; [by exists ds | set_solver]. }
  destruct (m !! date) as [s|] eqn:Hm.
  - apply elem_of_list_to_map_1'.
    + intros s' Hin%elem_of_expand_list%Hiff. congruence.
    + by apply elem_of_expand_list, Hiff.
  - destruct (list_to_map _ !! date) as [s|] eqn:Hl; [|done].
    apply elem_of_list_to_map_2, elem_of_expand_list, Hiff in Hl. done.
Qed.

(** C6: the grouping is the exact inverse of the date-to-services mapping:
    a service set is a key with the set of all dates mapped to it, provided
    there is one; expanding the groups gives the mapping back; the groups
    are non-empty, two of them share no date, and together they hold every
    date of the mapping. *)
Theorem dates_by_service_ids_inverse feed m :
  _service_ids_by_date feed = inr m →
  ∃ groups,
    _dates_by_service_ids feed = inr groups ∧
    expand groups = m ∧
    (∀ service_ids dates,
       groups !! service_ids = Some dates ↔
       dates ≠ ∅ ∧ ∀ date, date ∈ dates ↔ m !! date = Some service_ids) ∧
    (∀ s1 s2 dates1 dates2,
       groups !! s1 = Some dates1 → groups !! s2 = Some dates2 →
       s1 ≠ s2 → dates1 ## dates2) ∧
    (∀ date,
       date ∈ dom m ↔
       ∃ service_ids dates, groups !! service_ids = Some dates ∧ date ∈ dates).
Proof.
  intros Hm. exists (foldl group_date ∅ (map_to_list m)).
  split; [unfold _dates_by_service_ids; by rewrite Hm|].
  split; [apply expand_group_dates|].
  split; [apply group_dates_lookup|]. split.
  - intros s1 s2 ds1 ds2 [_ H1]%group_dates_lookup [_ H2]%group_dates_lookup Hneq.
    intros d Hd1%H1 Hd2%H2. congruence.
  - intros date. rewrite elem_of_dom. split.
    + intros [s Hs]. apply group_dates_spec in Hs. unfold getdefault in Hs.
      destruct (foldl group_date ∅ (map_to_list m) !! s) as [ds|] eqn:Hg; [|set_solver].
      by exists s, ds.
    + intros (s & ds & [_ Hmem]%group_dates_lookup & Hd). exists s. by apply Hmem.
Qed.

End dates_by_service_ids_facts.

(** ** _trip_counts_by_date *)

Section trip_counts_by_date_facts.
Context `{Parsers}.
Implicit Types (feed : Feed) (m : gmap Z (gset string))
  (groups : gmap (gset string) (gset Z)) (counts : gmap Z Z).

(** The inner loop: every date of the group gains the group's count. *)
Lemma add_count_lookup (c : Z) (l : list Z) counts (d : Z) :
  NoDup l →
  foldl (λ results date, <[date := getdefault 0 results date + c]> results) counts l !! d =
  if decide (d ∈ l) then Some (getdefault 0 counts d + c) else counts !! d.
Proof.
  intros Hnd. revert counts.
  induction Hnd as [|x l Hx Hnd IH]; intros counts; cbn [foldl].
  - rewrite decide_False; [done | by inversion 1].
  - rewrite IH. destruct (decide (d ∈ l)) as [Hd|Hd].
    + rewrite decide_True by (by right).
      rewrite getdefault_insert, decide_False; [done | congruence].
    + destruct (decide (d = x)) as [->|Hdx].
      * rewrite decide_True by left. by rewrite lookup_insert_eq.
      * rewrite decide_False by (rewrite elem_of_cons; tauto).
        by rewrite lookup_insert_ne.
Qed.

Lemma count_dates_lookup (trips : list TripsRow) counts
    (service_ids : gset string) (dates : gset Z) (d : Z) :
  count_dates trips counts (service_ids, dates) !! d =
  if decide (d ∈ dates)
  then Some (getdefault 0 counts d + trip_count trips service_ids)
  else counts !! d.
Proof.
  unfold count_dates. rewrite add_count_lookup by apply NoDup_elements.
  destruct (decide (d ∈ dates)) as [Hd|Hd].
  - rewrite decide_True; [done | by apply elem_of_elements].
  - rewrite decide_False; [done | by rewrite elem_of_elements].
Qed.

(** The outer loop over groups that partition the dates by the value [m]
    gives them. *)
Lemma count_groups_lookup (trips : list TripsRow) m
    (l : list (gset string * gset Z)) counts (d : Z) :
  NoDup l.*1 →
  (∀ s ds date, (s, ds) ∈ l → date ∈ ds → m !! date = Some s) →
  (∀ s ds, (s, ds) ∈ l → d ∈ ds →
     foldl (count_dates trips) counts l !! d =
     Some (getdefault 0 counts d + trip_count trips s)) ∧
  ((∀ s ds, (s, ds) ∈ l → d ∉ ds) →
     foldl (count_dates trips) counts l !! d = counts !! d).
Proof.
  revert counts. induction l as [|[s0 ds0] l IH]; intros counts Hnd Hm; cbn [foldl].
  - split; [intros s ds Hin; by inversion Hin | done].
  - apply NoDup_cons in Hnd as [Hs0 Hnd].
    assert (∀ s ds date, (s, ds) ∈ l → date ∈ ds → m !! date = Some s) as Hm'.
    { intros s ds date Hin. apply Hm. by right. }
    assert (∀ s ds, (s, ds) ∈ l → d ∈ ds → d ∉ ds0) as Hfresh.
    { intros s ds Hin Hd Hd0.
      assert (s = s0) as ->.
      { pose proof (Hm s ds d (list_elem_of_further _ _ _ Hin) Hd) as E1.
        pose proof (Hm s0 ds0 d (list_elem_of_here _ _) Hd0) as E2. congruence. }
      apply Hs0. apply list_elem_of_fmap. by exists (s0, ds). }
    destruct (IH (count_dates trips counts (s0, ds0)) Hnd Hm') as [IHin IHout].
    split.
    + intros s ds [[= -> ->] | Hin]%elem_of_cons Hd.
      * rewrite IHout.
        -- rewrite count_dates_lookup. by rewrite decide_True.
        -- intros s' ds' Hin' Hd'. by apply (Hfresh s' ds').
      * rewrite (IHin s ds Hin Hd). f_equal. f_equal.
        unfold getdefault. rewrite count_dates_lookup.
        rewrite decide_False; [done | by apply (Hfresh s ds)].
    + intros Hout. rewrite IHout.
      * rewrite count_dates_lookup. rewrite decide_False; [done|].
        apply (Hout s0 ds0). left.
      * intros s ds Hin. apply (Hout s ds). by right.
Qed.

(** The count of a date is the number of trips on the services of that
    date. *)
Lemma trip_counts_lookup (trips : list TripsRow) m (d : Z) :
  foldl (count_dates trips) ∅
    (map_to_list (foldl group_date ∅ (map_to_list m))) !! d =
  trip_count trips <$> m !! d.
Proof.
  set (groups := foldl group_date ∅ (map_to_list m)).
  destruct (count_groups_lookup trips m (map_to_list groups) ∅ d) as [Hin Hout].
  { apply NoDup_fst_map_to_list. }
  { intros s ds date Hg%elem_of_map_to_list Hd.
    apply group_dates_lookup in Hg as [_ Hmem]. by apply Hmem. }
  destruct (m !! d) as [s|] eqn:Hm; simpl.
  - pose proof Hm as Hg. apply group_dates_spec in Hg. fold groups in Hg.
    unfold getdefault in Hg.
    destruct (groups !! s) as [ds|] eqn:Hds; [|set_solver]. simpl in Hg.
    rewrite (Hin s ds); [|by apply elem_of_map_to_list | done].
    unfold getdefault. rewrite lookup_empty. simpl. done.
  - rewrite Hout; [by rewrite lookup_empty|].
    intros s ds Hg%elem_of_map_to_list Hd.
    apply group_dates_lookup in Hg as [_ Hmem]. apply Hmem in Hd. congruence.
Qed.

Lemma trip_counts_by_date_inr feed m :
  _service_ids_by_date feed = inr m →
  ∃ counts,
    _trip_counts_by_date feed = inr counts ∧
    ∀ date, counts !! date = trip_count (trips feed) <$> m !! date.
Proof.
  intros Hm. eexists. split.
  - unfold _trip_counts_by_date, _dates_by_service_ids. rewrite Hm. reflexivity.
  - apply trip_counts_lookup.
Qed.

Lemma trip_counts_by_date_dom feed m :
  _service_ids_by_date feed = inr m →
  ∃ counts, _trip_counts_by_date feed = inr counts ∧ dom counts = dom m.
Proof.
  intros Hm. destruct (trip_counts_by_date_inr feed m Hm) as (counts & Hc & Hlookup).
  exists counts. split; [done|].
  apply set_eq. intros date. rewrite !elem_of_dom, Hlookup. by rewrite fmap_is_Some.
Qed.

Lemma trip_count_positive (trips : list TripsRow) (service_ids : gset string)
    (t : TripsRow) :
  t ∈ trips → trip_service_id t ∈ service_ids → 1 ≤ trip_count trips service_ids.
Proof.
  intros Hin Hs. unfold trip_count.
  assert (t ∈ filter (λ t, trip_service_id t ∈ service_ids) trips) as Hf
    by by apply list_elem_of_filter.
  destruct (filter _ trips); [by inversion Hf | simpl; lia].
Qed.

(** C10: the counts mapping has the keys of the date-to-services mapping;
    the count of a date is the number of trips whose service is in the
    date's set; every service of every set is a service of some trip, so
    every count is at least 1. *)
Theorem trip_counts_by_date_positive feed m :
  _service_ids_by_date feed = inr m →
  ∃ counts,
    _trip_counts_by_date feed = inr counts ∧
    dom counts = dom m ∧
    (∀ date service_ids,
       m !! date = Some service_ids →
       counts !! date = Some (trip_count (trips feed) service_ids) ∧
       ∀ service_id, service_id ∈ service_ids → referenced feed service_id) ∧
    (∀ date count, counts !! date = Some count → 1 ≤ count).
Proof.
  intros Hm. destruct (trip_counts_by_date_inr feed m Hm) as (counts & Hc & Hlookup).
  pose proof (service_ids_by_date_active feed m Hm) as Hact.
  pose proof (service_ids_by_date_nonempty feed m Hm) as Hne.
  assert (∀ date service_ids service_id,
    m !! date = Some service_ids → service_id ∈ service_ids →
    referenced feed service_id) as Href.
  { intros date s service_id Hs Hin.
    assert (active m date service_id) as Ha
      by (unfold active, getdefault; by rewrite Hs).
    apply Hact in Ha as [[(cal & ? & ? & _ & _ & Href & _) | (cd & _ & _ & Href & _)] _];
      done. }
  exists counts. split; [done|]. split; [|split].
  - apply set_eq. intros date. rewrite !elem_of_dom, Hlookup.
    by rewrite fmap_is_Some.
  - intros date s Hs. split; [by rewrite Hlookup, Hs|].
    intros service_id. by apply (Href date s service_id).
  - intros date count. rewrite Hlookup.
    destruct (m !! date) as [s|] eqn:Hs; [|done]. intros [= <-].
    pose proof (Hne date s Hs) as [service_id Hin]%set_choose_L.
    destruct (Href date s service_id Hs Hin) as (t & Ht & Hid).
    apply (trip_count_positive _ _ t); [done | by rewrite Hid].
Qed.

End trip_counts_by_date_facts.

(** ** max with a key *)

Lemma tuple_lt_spec (a b : Z * Z) :
  tuple_lt a b = true ↔ a.1 < b.1 ∨ (a.1 = b.1 ∧ a.2 < b.2).
Proof. unfold tuple_lt. destruct a, b; simpl. lia. Qed.

Lemma tuple_lt_false (a b : Z * Z) :
  tuple_lt a b = false ↔ b.1 < a.1 ∨ (b.1 = a.1 ∧ b.2 ≤ a.2).
Proof. unfold tuple_lt. destruct a, b; simpl. lia. Qed.

Lemma max_from_elem_of {A : Type} (key : A → Z * Z) (best : A) (l : list A) :
  max_from key best l ∈ best :: l.
Proof.
  revert best. induction l as [|x l IH]; intros best; simpl; [left|].
  specialize (IH (if tuple_lt (key best) (key x) then x else best)).
  destruct (tuple_lt (key best) (key x)).
  - by right.
  - apply elem_of_cons in IH as [-> | ?]; [left | by right; right].
Qed.

(** The running maximum never decreases. *)
Lemma max_from_above {A : Type} (key : A → Z * Z) (best : A) (l : list A) :
  tuple_lt (key (max_from key best l)) (key best) = false.
Proof.
  revert best. induction l as [|x l IH]; intros best; simpl.
  - apply tuple_lt_false. lia.
  - specialize (IH (if tuple_lt (key best) (key x) then x else best)).
    destruct (tuple_lt (key best) (key x)) eqn:Hlt.
    + apply tuple_lt_spec in Hlt. apply tuple_lt_false in IH.
      apply tuple_lt_false. lia.
    + done.
Qed.

Lemma max_from_greatest {A : Type} (key : A → Z * Z) (best : A) (l : list A) (y : A) :
  y ∈ best :: l → tuple_lt (key (max_from key best l)) (key y) = false.
Proof.
  revert best. induction l as [|x l IH]; intros best.
  - intros ->%list_elem_of_singleton. apply max_from_above.
  - intros Hy. simpl.
    pose proof (max_from_above key (if tuple_lt (key best) (key x) then x else best) l)
      as Habove.
    apply elem_of_cons in Hy as [-> | [-> | Hy]%elem_of_cons].
    + destruct (tuple_lt (key best) (key x)) eqn:Hlt; [|done].
      apply tuple_lt_spec in Hlt. apply tuple_lt_false in Habove.
      apply tuple_lt_false. lia.
    + destruct (tuple_lt (key best) (key x)) eqn:Hlt; [done|].
      apply tuple_lt_false in Hlt. apply tuple_lt_false in Habove.
      apply tuple_lt_false. lia.
    + apply IH. by right.
Qed.

Lemma max_inr {A : Type} (l : list A) (key : A → Z * Z) :
  l ≠ [] →
  ∃ x, max_ l key = inr x ∧ x ∈ l ∧ ∀ y, y ∈ l → tuple_lt (key x) (key y) = false.
Proof.
  destruct l as [|x l]; [done|]. intros _. exists (max_from key x l).
  split; [done|]. split; [apply max_from_elem_of|].
  intros y. apply max_from_greatest.
Qed.

(** ** _busiest_date *)

Section busiest_date_facts.
Context `{Parsers}.

(** C4: the date returned has the greatest trip count of the counts
    mapping; among the dates with that count it is the earliest; and it
    comes with its own service set. *)
Theorem busiest_date_earliest_max (feed : Feed) (m : gmap Z (gset string)) :
  _service_ids_by_date feed = inr m →
  ∃ counts date service_ids count,
    _trip_counts_by_date feed = inr counts ∧
    _busiest_date feed = inr (date, service_ids) ∧
    counts !! date = Some count ∧
    m !! date = Some service_ids ∧
    ∀ date' count',
      counts !! date' = Some count' →
      count' ≤ count ∧ (count' = count → date ≤ date').
Proof.
  intros Hm.
  destruct (trip_counts_by_date_dom feed m Hm) as (counts & Hc & Hdom).
  assert (map_to_list counts ≠ []) as Hitems.
  { rewrite map_to_list_empty_iff. intros ->.
    apply service_ids_by_date_inr in Hm as [_ Hne]. apply Hne.
    apply dom_empty_iff_L. by rewrite <- Hdom, dom_empty_L. }
  destruct (max_inr (map_to_list counts) max_by_date Hitems)
    as ([date count] & Hmax & Hin%elem_of_map_to_list & Hgreatest).
  assert (is_Some (m !! date)) as [service_ids Hs].
  { apply elem_of_dom. rewrite <- Hdom. apply elem_of_dom. by eexists. }
  exists counts, date, service_ids, count.
  split; [done|]. split; [|split; [done|split; [done|]]].
  - unfold _busiest_date. rewrite Hm, Hc. simpl. rewrite Hmax. simpl.
    unfold getitem. by rewrite Hs.
  - intros date' count' Hin'%elem_of_map_to_list.
    apply Hgreatest, tuple_lt_false in Hin'. simpl in Hin'. lia.
Qed.

End busiest_date_facts.

(** ** _busiest_week *)

Lemma for_each_total {A S : Type} (body : A → S → result S) (l : list A) (s : S) :
  (∀ x s, x ∈ l → ∃ s', body x s = inr s') → ∃ s', for_each body l s = inr s'.
Proof.
  revert s. induction l as [|x l IH]; intros s Hbody; simpl; [by eexists|].
  destruct (Hbody x s) as (s1 & ->); [left|]. simpl.
  apply IH. intros y s' Hy. apply Hbody. by right.
Qed.

Lemma sum_snoc (l : list Z) (x : Z) :
  foldr Z.add 0 (l ++ [x]) = foldr Z.add 0 l + x.
Proof. induction l as [|y l IH]; simpl; lia. Qed.

Lemma sum_perm (l l' : list Z) : l ≡ₚ l' → foldr Z.add 0 l = foldr Z.add 0 l'.
Proof. induction 1; simpl; lia. Qed.

(** A week is a Monday: its ordinal is 1 modulo 7. *)
Lemma withdate_monday (date : Z) : (Week.withdate date - 1) `mod` 7 = 0.
Proof.
  unfold Week.withdate, weekday.
  pose proof (Z.div_mod (date + 6) 7 ltac:(lia)) as Hdm.
  replace (date - (date + 6) `mod` 7 - 1) with (((date + 6) `div` 7 - 1) * 7) by lia.
  apply Z.mod_mul. lia.
Qed.

(** On weeks, [Week.toordinal] is strictly increasing. *)
Lemma toordinal_le (date date' : Z) :
  Week.toordinal (Week.withdate date) ≤ Week.toordinal (Week.withdate date') ↔
  Week.withdate date ≤ Week.withdate date'.
Proof.
  pose proof (withdate_monday date) as Hm. pose proof (withdate_monday date') as Hm'.
  unfold Week.toordinal.
  set (w := Week.withdate date) in *. set (w' := Week.withdate date') in *.
  pose proof (Z.div_mod (w - 1) 7 ltac:(lia)) as Hw.
  pose proof (Z.div_mod (w' - 1) 7 ltac:(lia)) as Hw'.
  assert (w `div` 7 = (w - 1) `div` 7) as ->.
  { replace w with (1 + (w - 1) `div` 7 * 7) at 1 by lia.
    rewrite Z.div_add by lia. reflexivity. }
  assert (w' `div` 7 = (w' - 1) `div` 7) as ->.
  { replace w' with (1 + (w' - 1) `div` 7 * 7) at 1 by lia.
    rewrite Z.div_add by lia. reflexivity. }
  lia.
Qed.

Section busiest_week_facts.
Context `{Parsers}.
Implicit Types (m : gmap Z (gset string)) (counts : gmap Z Z).

(** The dates of [l] that fall in [week], in the order of [l]. *)
Local Abbreviation in_week week l :=
  (filter (λ date, Week.withdate date = week) l).

(** The week buckets after the loop over the dates [l]: a week's dates are
    the dates of [l] in it, in order; its total is the sum of their counts;
    a week with no date has no bucket. *)
Lemma weekly_buckets_loop counts (l : list Z) :
  (∀ date, date ∈ l → is_Some (counts !! date)) →
  ∃ weekly_trip_counts weekly_dates,
    for_each (week_step counts) l (∅, ∅) = inr (weekly_trip_counts, weekly_dates) ∧
    (∀ week, getdefault [] weekly_dates week = in_week week l) ∧
    (∀ week,
       weekly_trip_counts !! week =
       if decide (in_week week l = []) then None
       else Some (foldr Z.add 0 (getdefault 0 counts <$> in_week week l))).
Proof.
  intros Hcounts.
  destruct (for_each_total (week_step counts) l (∅, ∅)) as ([wtc wd] & Hloop).
  { intros date [wtc wd] [c Hc]%Hcounts. unfold week_step, getitem.
    rewrite Hc. simpl. by eexists. }
  exists wtc, wd. split; [done|].
  apply (for_each_inv _ (λ seen acc,
    (∀ week, getdefault [] acc.2 week = in_week week seen) ∧
    (∀ week,
       acc.1 !! week =
       if decide (in_week week seen = []) then None
       else Some (foldr Z.add 0 (getdefault 0 counts <$> in_week week seen)))))
    in Hloop; [done | |].
  - split; intros week; simpl.
    + unfold getdefault. by rewrite lookup_empty.
    + by rewrite lookup_empty.
  - intros seen date [wtc0 wd0] [wtc1 wd1] [Hwd Hwtc] Hin Hstep. simpl in *.
    unfold week_step, getitem in Hstep.
    destruct (Hcounts date Hin) as [c Hc]. rewrite Hc in Hstep. simpl in Hstep.
    injection Hstep as <- <-.
    assert (getdefault 0 counts date = c) as Hc' by (unfold getdefault; by rewrite Hc).
    split; intros week; rewrite filter_app.
    + rewrite getdefault_insert. case_decide as Hweek.
      * subst week. rewrite filter_cons_True, filter_nil by done. by rewrite Hwd.
      * rewrite filter_cons_False, filter_nil by done. by rewrite app_nil_r.
    + rewrite lookup_insert. case_decide as Hweek.
      * subst week. rewrite filter_cons_True, filter_nil by done.
        rewrite decide_False by (intros [_ ?]%app_eq_nil; discriminate).
        rewrite fmap_app.
        change (getdefault 0 counts <$> [date]) with [getdefault 0 counts date].
        rewrite sum_snoc, Hc'. f_equal. f_equal.
        unfold getdefault. rewrite Hwtc. by case_decide as Hnil; [rewrite Hnil|].
      * rewrite filter_cons_False, filter_nil by done. rewrite app_nil_r. apply Hwtc.
Qed.

Lemma restrict_to_lookup m (dates : list Z) (out : gmap Z (gset string)) :
  (∀ date, date ∈ dates → is_Some (m !! date)) →
  ∃ result,
    for_each (λ date out,
        service_ids ← getitem m date; mret (<[date := service_ids]> out))
      dates out = inr result ∧
    ∀ date, result !! date = if decide (date ∈ dates) then m !! date else out !! date.
Proof.
  revert out. induction dates as [|d dates IH]; intros out Hdates; cbn [for_each].
  - exists out. split; [done|]. intros date.
    rewrite decide_False; [done | by inversion 1].
  - destruct (Hdates d) as [s Hs]; [left|]. cbv beta.
    assert (getitem m d = inr s) as -> by (unfold getitem; by rewrite Hs).
    cbn [mbind result_bind mret result_ret].
    destruct (IH (<[d := s]> out)) as (result & Hloop & Hlookup).
    { intros date Hin. apply Hdates. by right. }
    exists result. split; [done|]. intros date. rewrite Hlookup.
    destruct (decide (date ∈ dates)) as [Hin|Hin].
    + rewrite decide_True; [done | by right].
    + rewrite lookup_insert. destruct (decide (d = date)) as [->|Hne].
      * rewrite decide_True; [done | left].
      * rewrite decide_False; [done|]. rewrite elem_of_cons. naive_solver.
Qed.

(** The total of a week over the keys of a mapping, as the loop sums it. *)
Lemma week_total_keys counts m (week : Z) :
  foldr Z.add 0 (getdefault 0 counts <$> in_week week (map_to_list m).*1) =
  week_total counts (dom m) week.
Proof.
  unfold week_total. apply sum_perm, fmap_Permutation.
  apply NoDup_Permutation.
  - apply NoDup_filter, NoDup_fst_map_to_list.
  - apply NoDup_elements.
  - intros date. rewrite list_elem_of_filter, elem_of_elements, elem_of_filter.
    rewrite elem_of_dom. f_equiv. rewrite list_elem_of_fmap. split.
    + intros ([d s] & -> & Hin%elem_of_map_to_list). by exists s.
    + intros [s Hs]. exists (date, s). split; [done | by apply elem_of_map_to_list].
Qed.

Lemma in_week_keys_nil m (week : Z) :
  in_week week (map_to_list m).*1 = [] ↔
  ¬ ∃ date, date ∈ dom m ∧ Week.withdate date = week.
Proof.
  split.
  - intros Hnil (date & [s Hs]%elem_of_dom & Hweek).
    assert (date ∈ in_week week (map_to_list m).*1) as Hin.
    { apply list_elem_of_filter. split; [done|]. apply list_elem_of_fmap.
      exists (date, s). split; [done | by apply elem_of_map_to_list]. }
    rewrite Hnil in Hin. by inversion Hin.
  - intros Hnone. destruct (in_week week (map_to_list m).*1) as [|d l] eqn:Hl; [done|].
    exfalso. apply Hnone. exists d.
    assert (d ∈ in_week week (map_to_list m).*1) as [Hweek Hin]%list_elem_of_filter
      by (rewrite Hl; left).
    split; [|done]. apply list_elem_of_fmap in Hin as ([d' s] & -> & Hin%elem_of_map_to_list).
    apply elem_of_dom. by exists s.
Qed.

(** C5: the dates of the mapping are split into week buckets, a bucket for
    each week that holds a date; a bucket's total is the sum of the trip
    counts of its dates.  The bucket chosen has the greatest total, and
    among the buckets with that total the earliest week.  The result is the
    mapping restricted to the dates of that week, which are dates of the
    mapping only; the chosen total is the sum of the counts of the dates
    returned. *)
Theorem busiest_week_bucket (feed : Feed) m :
  _service_ids_by_date feed = inr m →
  ∃ counts weekly_trip_counts weekly_dates week total result,
    _trip_counts_by_date feed = inr counts ∧
    weekly_buckets m counts = inr (weekly_trip_counts, weekly_dates) ∧
    (∀ w t,
       weekly_trip_counts !! w = Some t ↔
       (∃ date, date ∈ dom m ∧ Week.withdate date = w) ∧
       t = week_total counts (dom m) w) ∧
    weekly_trip_counts !! week = Some total ∧
    (∀ w t,
       weekly_trip_counts !! w = Some t →
       t ≤ total ∧
       (t = total → Week.toordinal week ≤ Week.toordinal w ∧ week ≤ w)) ∧
    _busiest_week feed = inr result ∧
    result = filter (λ kv, Week.withdate kv.1 = week) m ∧
    total = week_total counts (dom result) week.
Proof.
  intros Hm.
  destruct (trip_counts_by_date_dom feed m Hm) as (counts & Hc & Hdom).
  assert (∀ date, date ∈ (map_to_list m).*1 ↔ date ∈ dom m) as Hkeys.
  { intros date. rewrite elem_of_dom, list_elem_of_fmap. split.
    - intros ([d s] & -> & Hin%elem_of_map_to_list). by exists s.
    - intros [s Hs]. exists (date, s). split; [done | by apply elem_of_map_to_list]. }
  destruct (weekly_buckets_loop counts (map_to_list m).*1)
    as (wtc & wd & Hloop & Hwd & Hwtc).
  { intros date Hin%Hkeys. apply elem_of_dom. by rewrite Hdom. }
  assert (∀ w t,
    wtc !! w = Some t ↔
    (∃ date, date ∈ dom m ∧ Week.withdate date = w) ∧
    t = week_total counts (dom m) w) as Hbucket.
  { intros w t. rewrite Hwtc, week_total_keys.
    pose proof (in_week_keys_nil m w) as Hnil. case_decide as Hw.
    - split; [done | intros [Hex _]; by apply Hnil in Hw].
    - split; [intros [= <-] | intros [_ ->]; done].
      split; [|done]. apply dec_stable. intros Hno. by apply Hnil in Hno. }
  assert (map_to_list wtc ≠ []) as Hitems.
  { apply service_ids_by_date_inr in Hm as [_ Hne].
    apply map_choose in Hne as (date & s & Hs).
    assert (is_Some (wtc !! Week.withdate date)) as [t Ht].
    { eexists. apply Hbucket. split; [|done]. exists date.
      split; [apply elem_of_dom; by eexists | done]. }
    intros Hnil. apply elem_of_map_to_list in Ht. rewrite Hnil in Ht. by inversion Ht. }
  destruct (max_inr (map_to_list wtc) max_by_week Hitems)
    as ([week total] & Hmax & Hin%elem_of_map_to_list & Hgreatest).
  destruct (restrict_to_lookup m (getdefault [] wd week) ∅)
    as (result & Hresult & Hlookup).
  { intros date. rewrite Hwd. intros [_ Hin']%list_elem_of_filter.
    by apply elem_of_dom, Hkeys. }
  assert (result = filter (λ kv, Week.withdate kv.1 = week) m) as Hfilter.
  { apply map_eq. intros date. apply option_eq. intros s.
    rewrite map_lookup_filter_Some, Hlookup, Hwd, lookup_empty. simpl.
    case_decide as Hd.
    - apply list_elem_of_filter in Hd as [Hd _]. tauto.
    - split; [done|]. intros [Hs Hw]. exfalso. apply Hd.
      apply list_elem_of_filter. split; [done|]. apply Hkeys, elem_of_dom. by eexists. }
  exists counts, wtc, wd, week, total, result.
  split; [done|]. split; [done|]. split; [done|]. split; [done|].
  split; [|split; [|split; [done|]]].
  - intros w t Hw. pose proof Hw as Hw'. apply elem_of_map_to_list in Hw'.
    apply Hgreatest, tuple_lt_false in Hw'. simpl in Hw'.
    split; [lia|]. intros ->.
    assert (Week.toordinal week ≤ Week.toordinal w) as Hord by lia.
    split; [done|].
    apply Hbucket in Hw as [(d & _ & <-) _]. apply Hbucket in Hin as [(d' & _ & <-) _].
    by apply toordinal_le.
  - unfold _busiest_week. rewrite Hm, Hc. simpl.
    unfold weekly_buckets. rewrite Hloop. simpl. rewrite Hmax. simpl.
    exact Hresult.
  - apply Hbucket in Hin as [_ ->]. unfold week_total. do 3 f_equal.
    apply set_eq. intros date. rewrite !elem_of_filter, !elem_of_dom, Hfilter.
    split.
    + intros [Hw [s Hs]]. split; [done|]. exists s.
      by apply map_lookup_filter_Some.
    + intros [Hw [s [Hs _]%map_lookup_filter_Some]]. split; [done | by exists s].
Qed.

End busiest_week_facts.

(** ** load_feed *)

Section loader_facts.
Context {DiGraph ColumnFilter : Type} `{Graph DiGraph}.
Implicit Types (path : string) (filters : list (string * ColumnFilter))
  (config : DiGraph).

(** What [_load_feed] raises was raised by the feed's constructor. *)
Lemma load_feed_dir_raises {FS : Type} (handle : ∀ X, fsE X → FS → X * FS)
    path filters config (s : FS) (e : exn) :
  (run handle (_load_feed path filters config) s).1.1 = inl e →
  ∃ err, e = External err.
Proof.
  unfold _load_feed, Feed_of_path, checked, call. simpl.
  destruct (handle _ (FeedInit path) s) as [[err|] s']; simpl.
  - intros [= <-]. by exists err.
  - by destruct (foldl layer _ filters).
Qed.

(** What [_unpack_feed] raises was raised while unpacking or by the
    feed's constructor. *)
Lemma unpack_feed_raises {FS : Type} (handle : ∀ X, fsE X → FS → X * FS)
    path filters config (s : FS) (e : exn) :
  (run handle (_unpack_feed path filters config) s).1.1 = inl e →
  ∃ err, e = External err.
Proof.
  unfold _unpack_feed, _load_feed, Feed_of_path, checked, call. simpl.
  destruct (handle _ Mkdtemp s) as [tmpdir s1]; simpl.
  destruct (handle _ (UnpackArchive path tmpdir) s1) as [[err|] s2]; simpl.
  - intros [= <-]. by exists err.
  - destruct (handle _ (FeedInit tmpdir) s2) as [[err|] s3]; simpl.
    + intros [= <-]. by exists err.
    + destruct (foldl layer _ filters). simpl.
      by destruct (handle _ (Finalize tmpdir) s3).
Qed.

(** C8: with a graph that is not acyclic, [load_feed] is the computation
    that raises the configuration error and does nothing else: run against
    any file system it makes no call and leaves the state as it was.  With
    an acyclic graph it raises the input error exactly when the file system
    answers that the path is neither a directory nor a file. *)
Theorem load_feed_errors path (filters : option (list (string * ColumnFilter)))
    (config : option DiGraph) :
  (is_directed_acyclic_graph (default default_config config) = false →
   load_feed path filters config = throw (ValueError "Config must be a DAG") ∧
   ∀ (FS : Type) (handle : ∀ X, fsE X → FS → X * FS) (s : FS),
     run handle (load_feed path filters config) s =
     (inl (ValueError "Config must be a DAG"), s, [])) ∧
  (is_directed_acyclic_graph (default default_config config) = true →
   ∀ (FS : Type) (handle : ∀ X, fsE X → FS → X * FS) (s : FS),
     (run handle (load_feed path filters config) s).1.1 =
       inl (ValueError ("File or path not found: " ++ path)) ↔
     (handle _ (IsDir path) s).1 = false ∧
     (handle _ (IsFile path) (handle _ (IsDir path) s).2).1 = false).
Proof.
  split; intros Hdag.
  - assert (load_feed path filters config = throw (ValueError "Config must be a DAG"))
      as Heq.
    { unfold load_feed. destruct config; simpl in *; by rewrite Hdag. }
    split; [done|]. intros FS handle s. by rewrite Heq.
  - intros FS handle s.
    assert (load_feed path filters config =
      (isdir ← call (IsDir path);
       if isdir : bool
       then _load_feed path (default [] filters) (default default_config config)
       else
         isfile ← call (IsFile path);
         if isfile : bool
         then _unpack_feed path (default [] filters) (default default_config config)
         else throw (ValueError ("File or path not found: " ++ path)))) as ->.
    { unfold load_feed. destruct config, filters; simpl in *; by rewrite Hdag. }
    pose proof (load_feed_dir_raises handle path (default [] filters)
      (default default_config config)) as Hdir.
    pose proof (unpack_feed_raises handle path (default [] filters)
      (default default_config config)) as Harc.
    revert Hdir Harc.
    generalize (_load_feed path (default [] filters) (default default_config config)).
    generalize (_unpack_feed path (default [] filters) (default default_config config)).
    intros arc dir Hdir Harc. unfold call. simpl.
    destruct (handle _ (IsDir path) s) as [[|] s1]; simpl.
    + specialize (Hdir s1). destruct (run handle dir s1) as [[r s2] calls]. simpl in *.
      split; [|by intros [? _]]. intros ->.
      by destruct (Hdir _ eq_refl) as [err Herr].
    + destruct (handle _ (IsFile path) s1) as [[|] s2]; simpl.
      * specialize (Harc s2). destruct (run handle arc s2) as [[r s3] calls].
        simpl in *. split; [|by intros [_ ?]]. intros ->.
        by destruct (Harc _ eq_refl) as [err Herr].
      * done.
Qed.

(** The graph of each layer: [_load_feed] reroots the running graph, so the
    layer of a filter is built on the converter-free graph rerooted at
    every filename up to and including its own, in the order supplied. *)
Lemma load_feed_layer_graph filters (feed : FeedObject) config :
  (foldl layer (feed, config) filters).2 = foldl reroot_graph config filters.*1.
Proof.
  revert feed config. induction filters as [|[filename column_filters] filters IH];
    intros feed config; simpl; [done|]. apply IH.
Qed.

Lemma load_feed_layer_snoc filters (feed : FeedObject) config
    (filename : string) (column_filters : ColumnFilter) :
  foldl layer (feed, config) (filters ++ [(filename, column_filters)]) =
  (Feed_of_feed (foldl layer (feed, config) filters).1
     [(filename, column_filters)]
     (reroot_graph (foldl reroot_graph config filters.*1) filename),
   reroot_graph (foldl reroot_graph config filters.*1) filename).
Proof.
  rewrite foldl_app. simpl. rewrite <- load_feed_layer_graph with (feed := feed).
  by destruct (foldl layer (feed, config) filters).
Qed.

End loader_facts.

(** ** Iteration order

    Python iterates over a dictionary in insertion order and over a set in
    an order of its own; the embedding iterates over [map_to_list] and
    [elements].  Each loop of the module gives the same result whatever the
    order of its items. *)

Section iteration_order.
Context `{Parsers}.

(** [for service_id in removals[date]] *)
Lemma remove_services_order (date : Z) (l l' : list string)
    (results : gmap Z (gset string)) :
  l ≡ₚ l' →
  foldl (λ results service_id, remove_service date service_id results) results l =
  foldl (λ results service_id, remove_service date service_id results) results l'.
Proof.
  intros Hperm. apply map_eq. intros d.
  assert (∀ l : list string,
    foldl (λ results service_id, remove_service date service_id results) results l !! date =
    match l with
    | [] => results !! date
    | _ => Some (getdefault ∅ results date ∖ list_to_set l)
    end) as Hdate.
  { clear. intros l. revert results. induction l as [|x l IH]; intros results; [done|].
    cbn [foldl]. rewrite IH. destruct l as [|y l].
    - rewrite remove_service_lookup, decide_True by done. f_equal. set_solver.
    - f_equal. unfold getdefault at 1.
      rewrite remove_service_lookup, decide_True by done. simpl. set_solver. }
  destruct (decide (d = date)) as [->|Hd].
  - rewrite !Hdate. destruct l as [|x l], l' as [|x' l'].
    + done.
    + by apply Permutation_nil_cons in Hperm.
    + symmetry in Hperm. by apply Permutation_nil_cons in Hperm.
    + by rewrite Hperm.
  - destruct (remove_services_lookup results date l) as [_ ->]; [|done].
    by destruct (remove_services_lookup results date l') as [_ ->].
Qed.

(** [for date in removals] *)
Lemma process_removals_order (l l' : list (Z * gset string))
    (results : gmap Z (gset string)) :
  l ≡ₚ l' → nonempty_values results →
  foldl process_removal results l = foldl process_removal results l'.
Proof.
  intros Hperm Hne.
  apply nonempty_values_ext; [by apply process_removals_nonempty.. |].
  intros date service_id.
  pose proof (process_removals_active l results date service_id) as Hl.
  pose proof (process_removals_active l' results date service_id) as Hl'.
  unfold active in *. rewrite Hl, Hl'. by setoid_rewrite Hperm.
Qed.

(** [for date, service_ids in _service_ids_by_date(feed).items()] *)
Lemma group_dates_order (l l' : list (Z * gset string)) :
  l ≡ₚ l' → foldl group_date ∅ l = foldl group_date ∅ l'.
Proof.
  intros Hperm.
  apply nonempty_values_ext;
    [by apply nonempty_group_dates, nonempty_values_empty.. |].
  intros service_ids date. rewrite !elem_of_group_dates. by rewrite Hperm.
Qed.

(** [for date in dates] *)
Lemma add_count_order (c : Z) (l l' : list Z) (counts : gmap Z Z) :
  NoDup l → l ≡ₚ l' →
  foldl (λ results date, <[date := getdefault 0 results date + c]> results) counts l =
  foldl (λ results date, <[date := getdefault 0 results date + c]> results) counts l'.
Proof.
  intros Hnd Hperm. apply map_eq. intros d.
  rewrite !add_count_lookup by (done || by rewrite <- Hperm).
  destruct (decide (d ∈ l)) as [Hd|Hd].
  - rewrite decide_True; [done | by rewrite <- Hperm].
  - rewrite decide_False; [done | by rewrite <- Hperm].
Qed.

(** [for service_ids, dates in _dates_by_service_ids(feed).items()] *)
Lemma count_groups_order (trips : list TripsRow) (m : gmap Z (gset string))
    (l : list (gset string * gset Z)) :
  l ≡ₚ map_to_list (foldl group_date ∅ (map_to_list m)) →
  foldl (count_dates trips) ∅ l =
  foldl (count_dates trips) ∅ (map_to_list (foldl group_date ∅ (map_to_list m))).
Proof.
  intros Hperm. apply map_eq. intros d. rewrite trip_counts_lookup.
  set (groups := foldl group_date ∅ (map_to_list m)) in *.
  destruct (count_groups_lookup trips m l ∅ d) as [Hin Hout].
  { rewrite Hperm. apply NoDup_fst_map_to_list. }
  { intros s ds date Hg Hd. rewrite Hperm in Hg. apply elem_of_map_to_list in Hg.
    apply group_dates_lookup in Hg as [_ Hmem]. by apply Hmem. }
  destruct (m !! d) as [s|] eqn:Hm; simpl.
  - pose proof Hm as Hg. apply group_dates_spec in Hg. fold groups in Hg.
    unfold getdefault in Hg.
    destruct (groups !! s) as [ds|] eqn:Hds; [|set_solver]. simpl in Hg.
    rewrite (Hin s ds); [| rewrite Hperm; by apply elem_of_map_to_list | done].
    unfold getdefault. by rewrite lookup_empty.
  - rewrite Hout; [by rewrite lookup_empty|].
    intros s ds Hg Hd. rewrite Hperm in Hg. apply elem_of_map_to_list in Hg.
    apply group_dates_lookup in Hg as [_ Hmem]. apply Hmem in Hd. congruence.
Qed.

(** [max(d.items(), key=max_by)]: the keys of distinct items differ, so the
    maximum is the same item in every order. *)
Lemma max_order {A : Type} (key : A → Z * Z) (l l' : list A) :
  (∀ x y, x ∈ l → y ∈ l → key x = key y → x = y) →
  l ≡ₚ l' → max_ l key = max_ l' key.
Proof.
  intros Hinj Hperm. destruct l as [|x l].
  - apply Permutation_nil_l in Hperm. by subst.
  - destruct l' as [|x' l']; [by apply Permutation_nil_r in Hperm|].
    destruct (max_inr (x :: l) key) as (a & -> & Ha & Hmax); [done|].
    destruct (max_inr (x' :: l') key) as (a' & -> & Ha' & Hmax'); [done|].
    f_equal. apply Hinj; [done | by rewrite Hperm|].
    assert (a' ∈ x :: l) as Hin by (by rewrite Hperm).
    assert (a ∈ x' :: l') as Hin' by (by rewrite <- Hperm).
    apply Hmax, tuple_lt_false in Hin. apply Hmax', tuple_lt_false in Hin'.
    destruct (key a), (key a'); simpl in *. f_equal; lia.
Qed.

Lemma busiest_date_order (counts : gmap Z Z) (l : list (Z * Z)) :
  l ≡ₚ map_to_list counts →
  max_ l max_by_date = max_ (map_to_list counts) max_by_date.
Proof.
  apply max_order. intros [d c] [d' c'] _ _. simpl. intros [= -> Hd]. f_equal. lia.
Qed.

Lemma busiest_week_order (weekly_trip_counts : gmap Z Z) (l : list (Z * Z)) :
  (∀ week total,
     weekly_trip_counts !! week = Some total → ∃ date, Week.withdate date = week) →
  l ≡ₚ map_to_list weekly_trip_counts →
  max_ l max_by_week = max_ (map_to_list weekly_trip_counts) max_by_week.
Proof.
  intros Hweeks Hperm. apply max_order; [|done].
  intros [w c] [w' c'] Hin Hin'. rewrite Hperm in Hin, Hin'.
  apply elem_of_map_to_list in Hin, Hin'. simpl. intros [= -> Hord].
  destruct (Hweeks _ _ Hin) as [d <-]. destruct (Hweeks _ _ Hin') as [d' Hd'].
  rewrite <- Hd' in *.
  assert (Week.withdate d = Week.withdate d') as Hw.
  { apply Z.le_antisymm; apply toordinal_le; lia. }
  rewrite Hw in *. congruence.
Qed.

(** [for date in service_ids_by_date.keys()]: the totals are the same in
    every order, and so are the dates of each week up to their order. *)
Lemma weekly_buckets_order (counts : gmap Z Z) (l l' : list Z) :
  (∀ date, date ∈ l → is_Some (counts !! date)) → l ≡ₚ l' →
  ∃ weekly_trip_counts weekly_dates weekly_dates',
    for_each (week_step counts) l (∅, ∅) = inr (weekly_trip_counts, weekly_dates) ∧
    for_each (week_step counts) l' (∅, ∅) = inr (weekly_trip_counts, weekly_dates') ∧
    ∀ week, getdefault [] weekly_dates week ≡ₚ getdefault [] weekly_dates' week.
Proof.
  intros Hcounts Hperm.
  destruct (weekly_buckets_loop counts l Hcounts) as (wtc & wd & Hloop & Hwd & Hwtc).
  destruct (weekly_buckets_loop counts l') as (wtc' & wd' & Hloop' & Hwd' & Hwtc').
  { intros date Hin. apply Hcounts. by rewrite Hperm. }
  assert (wtc' = wtc) as ->.
  { apply map_eq. intros week. rewrite Hwtc, Hwtc'.
    assert (filter (λ date, Week.withdate date = week) l
            ≡ₚ filter (λ date, Week.withdate date = week) l') as Hf by by rewrite Hperm.
    destruct (decide (filter _ l = [])) as [Hnil|Hnil].
    - rewrite Hnil in Hf. apply Permutation_nil_l in Hf. rewrite <- Hf.
      by rewrite decide_True.
    - rewrite decide_False.
      + f_equal. apply sum_perm. by rewrite Hf.
      + intros Hnil'. rewrite Hnil' in Hf. by apply Permutation_nil_r in Hf. }
  exists wtc, wd, wd'. split; [done|]. split; [done|].
  intros week. by rewrite Hwd, Hwd', Hperm.
Qed.

(** [{date: service_ids_by_date[date] for date in dates}] *)
Lemma restrict_to_order (m : gmap Z (gset string)) (dates dates' : list Z) :
  (∀ date, date ∈ dates → is_Some (m !! date)) → dates ≡ₚ dates' →
  restrict_to m dates = restrict_to m dates'.
Proof.
  intros Hdates Hperm. unfold restrict_to.
  destruct (restrict_to_lookup m dates ∅ Hdates) as (result & -> & Hlookup).
  destruct (restrict_to_lookup m dates' ∅) as (result' & -> & Hlookup').
  { intros date Hin. apply Hdates. by rewrite Hperm. }
  f_equal. apply map_eq. intros date. rewrite Hlookup, Hlookup'.
  destruct (decide (date ∈ dates)) as [Hd|Hd].
  - rewrite decide_True; [done | by rewrite <- Hperm].
  - rewrite decide_False; [done | by rewrite <- Hperm].
Qed.

End iteration_order.

(** ** The worked example and other closed instances *)

Section closed_instances.
Local Existing Instance strict_parsers.
Local Existing Instance edge_list_graph.

Example example_date : parse_date "20200101" = Some 737425.
Proof. vm_compute. reflexivity. Qed.

Lemma example_resolves : _service_ids_by_date example_feed = inr example_services.
Proof. vm_compute. reflexivity. Qed.

(** The counts of the worked example: one trip on 2020-01-01, three on
    2020-01-02. *)
Example example_trip_counts :
  (λ counts, (counts !! 737425, counts !! 737426)) <$> _trip_counts_by_date example_feed
  = inr (Some 1, Some 3).
Proof. vm_compute. reflexivity. Qed.

(** Three dates carry three trips each in the first week; the earliest is
    returned. *)
Example example_busiest_date :
  _busiest_date example_feed = inr (737426, {[ "WD" ]}).
Proof. vm_compute. reflexivity. Qed.

(** The second week (Monday 2020-01-06) carries 15 trips, the first 7. *)
Example example_busiest_week :
  _busiest_week example_feed =
  inr (list_to_map [ (737430, {[ "WD" ]}); (737431, {[ "WD" ]}); (737432, {[ "WD" ]});
                     (737433, {[ "WD" ]}); (737434, {[ "WD" ]}) ]).
Proof. vm_compute. reflexivity. Qed.

(** Calendar rows of a service without trips leave nothing: the assertion
    fails. *)
Example unreferenced_feed_fails :
  _service_ids_by_date unreferenced_feed
  = inl (AssertionError "No service found in feed.").
Proof. vm_compute. reflexivity. Qed.

Example cyclic_config_rejected :
  is_directed_acyclic_graph cyclic_config = false ∧
  is_directed_acyclic_graph (default_config (DiGraph := list (string * string))) = true.
Proof. vm_compute. done. Qed.

Example load_feed_cyclic :
  run nothing_exists
    (load_feed (ColumnFilter := unit) "feed" None (Some cyclic_config)) ()
  = (inl (ValueError "Config must be a DAG"), (), []).
Proof. vm_compute. reflexivity. Qed.

Example load_feed_missing_path :
  (run nothing_exists (load_feed (ColumnFilter := unit) "feed" None None) ()).1.1
  = inl (ValueError "File or path not found: feed").
Proof. vm_compute. reflexivity. Qed.

Example load_feed_directory :
  (run all_directories (load_feed (ColumnFilter := unit) "feed" None None) ()).1.1
  = inr (FeedOverFeed
           (FeedOverPath "feed" [] default_config false) [] default_config false).
Proof. vm_compute. reflexivity. Qed.

(** The worked example of the specification: HOL alone on 2020-01-01, WD
    on 2020-01-02, nothing on Saturday 2020-01-04. *)
Example worked_example_services :
  (λ m, (m !! 737425, m !! 737426, m !! 737428)) <$> _service_ids_by_date example_feed
  = inr (Some {[ "HOL" ]}, Some {[ "WD" ]}, None).
Proof. vm_compute. reflexivity. Qed.

Lemma service_ids_by_date_weekly_pattern_witness :
  _service_ids_by_date example_feed = inr example_services ∧
  (∃ weekly,
     calendar_block (applicable_calendar example_feed) ∅ = inr weekly ∧
     ∀ date service_id,
       active weekly date service_id ↔ calendar_adds example_feed date service_id) ∧
  (∀ date service_id,
     active example_services date service_id ↔
     (calendar_adds example_feed date service_id ∨
      exception_adds example_feed date service_id) ∧
     ¬ exception_removes example_feed date service_id) ∧
  (∀ date service_id,
     ¬ referenced example_feed service_id →
     ¬ calendar_adds example_feed date service_id ∧
     ¬ active example_services date service_id).
Proof.
  split; [exact example_resolves|].
  exact (service_ids_by_date_weekly_pattern example_feed example_services
           example_resolves).
Defined.

Lemma service_ids_by_date_exception_order_witness :
  example_caldates_reversed ≡ₚ calendar_dates example_feed ∧
  _service_ids_by_date (with_calendar_dates example_feed example_caldates_reversed)
  = _service_ids_by_date example_feed.
Proof.
  assert (example_caldates_reversed ≡ₚ calendar_dates example_feed) as Hperm
    by apply perm_swap.
  split; [exact Hperm|].
  exact (proj1 (service_ids_by_date_exception_order example_feed
                  example_caldates_reversed Hperm)).
Defined.

Lemma service_ids_by_date_values_nonempty_witness :
  _service_ids_by_date example_feed = inr example_services ∧
  ∀ date service_ids, example_services !! date = Some service_ids → service_ids ≠ ∅.
Proof.
  split; [exact example_resolves|].
  exact (proj1 (service_ids_by_date_values_nonempty example_feed example_services
                  example_resolves)).
Defined.

Lemma dates_by_service_ids_inverse_witness :
  _service_ids_by_date example_feed = inr example_services ∧
  ∃ groups,
    _dates_by_service_ids example_feed = inr groups ∧
    expand groups = example_services.
Proof.
  split; [exact example_resolves|].
  destruct (dates_by_service_ids_inverse example_feed example_services
              example_resolves) as (groups & Hgroups & Hexpand & _).
  exists groups. split; [exact Hgroups | exact Hexpand].
Defined.

Lemma trip_counts_by_date_positive_witness :
  _service_ids_by_date example_feed = inr example_services ∧
  ∃ counts,
    _trip_counts_by_date example_feed = inr counts ∧
    dom counts = dom example_services ∧
    ∀ date count, counts !! date = Some count → 1 ≤ count.
Proof.
  split; [exact example_resolves|].
  destruct (trip_counts_by_date_positive example_feed example_services
              example_resolves) as (counts & Hcounts & Hdom & _ & Hpos).
  exists counts. split; [exact Hcounts | split; [exact Hdom | exact Hpos]].
Defined.

Lemma busiest_date_earliest_max_witness :
  _service_ids_by_date example_feed = inr example_services ∧
  ∃ counts date service_ids count,
    _trip_counts_by_date example_feed = inr counts ∧
    _busiest_date example_feed = inr (date, service_ids) ∧
    counts !! date = Some count ∧
    example_services !! date = Some service_ids ∧
    ∀ date' count',
      counts !! date' = Some count' →
      count' ≤ count ∧ (count' = count → date ≤ date').
Proof.
  split; [exact example_resolves|].
  exact (busiest_date_earliest_max example_feed example_services example_resolves).
Defined.

Lemma busiest_week_bucket_witness :
  _service_ids_by_date example_feed = inr example_services ∧
  ∃ week result,
    _busiest_week example_feed = inr result ∧
    result = filter (λ kv, Week.withdate kv.1 = week) example_services.
Proof.
  split; [exact example_resolves|].
  destruct (busiest_week_bucket example_feed example_services example_resolves)
    as (counts & wtc & wd & week & total & result & _ & _ & _ & _ & _ & Hweek & Hres & _).
  exists week, result. split; [exact Hweek | exact Hres].
Defined.

End closed_instances.

(** * Further properties *)

(** ** When _service_ids_by_date raises *)

Lemma for_each_fails {A S : Type} (body : A → S → result S) (l : list A)
    (x : A) (s : S) :
  x ∈ l → (∀ s, ∃ e, body x s = inl e) → ∃ e, for_each body l s = inl e.
Proof.
  intros Hin Hx. revert s. induction Hin as [x l | x y l Hin IH]; intros s; simpl.
  - destruct (Hx s) as [e ->]. by exists e.
  - destruct (body y s) as [e|s']; simpl; [by exists e | by apply IH].
Qed.

Section raises_facts.
Context `{Parsers}.
Implicit Types (feed : Feed) (results : gmap Z (gset string)).

Lemma calendar_day_fails (cal : CalendarRow) (date : Z) results :
  int (weekday_flag cal (weekday date)) = None →
  calendar_day cal date results = inl parse_error.
Proof. intros Hflag. unfold calendar_day. rewrite dow_weekday. simpl. by rewrite Hflag. Qed.

Lemma calendar_day_inl (cal : CalendarRow) (date : Z) results (e : exn) :
  calendar_day cal date results = inl e →
  int (weekday_flag cal (weekday date)) = None.
Proof.
  unfold calendar_day. rewrite dow_weekday. simpl.
  destruct (int (weekday_flag cal (weekday date))) as [n|]; [|done]. simpl.
  by case_decide.
Qed.

Lemma parse_calendar_fails (l : list CalendarRow) (cal : CalendarRow) :
  cal ∈ l →
  parse_date (cal_start_date cal) = None ∨ parse_date (cal_end_date cal) = None →
  ∃ e, parse_calendar l = inl e.
Proof.
  intros Hin Hbad. unfold parse_calendar.
  eapply (map_each_fails _ l cal parse_error Hin).
  destruct Hbad as [-> | Hbad]; [done|].
  destruct (parse_date (cal_start_date cal)); simpl; by rewrite ?Hbad.
Qed.

(** The weekly-pattern block raises exactly when a row of its table has a
    date cell that does not parse, or covers a date whose flag does not. *)
Lemma calendar_block_raises (l : list CalendarRow) results :
  (∃ e, calendar_block l results = inl e) ↔
  ∃ cal, cal ∈ l ∧
    (parse_date (cal_start_date cal) = None ∨
     parse_date (cal_end_date cal) = None ∨
     ∃ start end_ date,
       parse_date (cal_start_date cal) = Some start ∧
       parse_date (cal_end_date cal) = Some end_ ∧
       start ≤ date ≤ end_ ∧ int (weekday_flag cal (weekday date)) = None).
Proof.
  split.
  - intros [e Hblock]. unfold calendar_block in Hblock.
    destruct l as [|c l]; simpl in Hblock; [done|].
    apply bind_inl in Hblock as [Hrows | (rows & Hrows & Hloop)].
    + apply map_each_inl in Hrows as (cal & Hin & Hcal). exists cal. split; [done|].
      destruct (parse_date (cal_start_date cal)) as [s|]; [|by left].
      destruct (parse_date (cal_end_date cal)) as [e'|]; [|by right; left]. done.
    + apply for_each_inl in Hloop as ([[cal start] end_] & r & Hin & Hrow).
      apply (elem_of_parse_calendar _ _ _ _ _ Hrows) in Hin as (Hin & Hs & He).
      apply for_each_inl in Hrow as (date & r' & Hdate%elem_of_seqZ & Hday).
      apply calendar_day_inl in Hday.
      exists cal. split; [done|]. right; right. exists start, end_, date.
      split; [done|]. split; [done|]. split; [lia | done].
  - intros (cal & Hin & Hbad).
    destruct (calendar_block l results) as [e|r] eqn:Hblock; [by exists e|].
    exfalso. unfold calendar_block in Hblock.
    destruct l as [|c l]; [by inversion Hin|]. simpl in Hblock.
    apply bind_inr in Hblock as (rows & Hrows & Hloop).
    destruct (parse_date (cal_start_date cal)) as [start|] eqn:Hs.
    2:{ destruct (parse_calendar_fails (c :: l) cal Hin) as [e He]; [by left|].
        rewrite He in Hrows. discriminate. }
    destruct (parse_date (cal_end_date cal)) as [end_|] eqn:He.
    2:{ destruct (parse_calendar_fails (c :: l) cal Hin) as [e He']; [by right|].
        rewrite He' in Hrows. discriminate. }
    destruct Hbad as [? | [? | (s & e & date & [= <-] & [= <-] & Hrange & Hflag)]];
      [done | done |].
    assert ((cal, start, end_) ∈ rows) as Hrow
      by by apply (elem_of_parse_calendar _ _ _ _ _ Hrows).
    destruct (for_each_fails calendar_row rows (cal, start, end_) results Hrow)
      as [e' He'].
    { intros r'. unfold calendar_row.
      apply (for_each_fails _ _ date).
      - apply elem_of_seqZ. lia.
      - intros r''. exists parse_error. by apply calendar_day_fails. }
    rewrite He' in Hloop. discriminate.
Qed.

Lemma accumulate_raises feed :
  accumulate feed = inl parse_error ↔
  unparsable_calendar_row feed ∨ unparsable_flag feed ∨ unparsable_exception_row feed.
Proof.
  assert ((∃ e, calendar_block (applicable_calendar feed) ∅ = inl e) ↔
          unparsable_calendar_row feed ∨ unparsable_flag feed) as Hcal.
  { rewrite calendar_block_raises. unfold unparsable_calendar_row, unparsable_flag.
    split.
    - intros (cal & [Hin Href]%elem_of_applicable_calendar & Hbad).
      destruct Hbad as [Hs | [He | (s & e & d & Hrest)]].
      + left. exists cal. tauto.
      + left. exists cal. tauto.
      + right. exists cal, s, e, d. tauto.
    - intros [(cal & Hin & Href & Hbad) | (cal & s & e & d & Hin & Href & Hrest)].
      + exists cal. split; [by apply elem_of_applicable_calendar | tauto].
      + exists cal. split; [by apply elem_of_applicable_calendar|].
        right; right. by exists s, e, d. }
  unfold accumulate. split.
  - intros [Hblock | (weekly & Hweekly & Hcd)]%bind_inl.
    + assert (unparsable_calendar_row feed ∨ unparsable_flag feed) as [?|?]
        by (apply Hcal; by eexists); tauto.
    + apply caldates_block_inl in Hcd as (_ & cd & [Hin Href]%elem_of_applicable_caldates & Hcd).
      right; right. by exists cd.
  - intros Hbad.
    destruct (calendar_block (applicable_calendar feed) ∅) as [e|weekly] eqn:Hblock.
    + simpl. f_equal. by apply calendar_block_inl in Hblock.
    + simpl. destruct Hbad as [Hbad | [Hbad | (cd & Hin & Href & Hcd)]].
      * assert (∃ e, @inr exn _ weekly = inl e) as [e ?] by (apply Hcal; by left). done.
      * assert (∃ e, @inr exn _ weekly = inl e) as [e ?] by (apply Hcal; by right). done.
      * apply (caldates_block_fails _ _ cd); [|done].
        by apply elem_of_applicable_caldates.
Qed.

(** The function raises either the [ValueError] of a cell parser or the
    assertion error, and the former exactly when a cell the code reads does
    not parse: a date cell of a weekly-pattern or exception row whose
    service has trips, or the flag of a weekday that occurs in such a
    row's range.  Rows of services without trips are never parsed, a flag
    of a weekday outside the range is never read, and an exception row is
    parsed whatever its exception type. *)
Theorem service_ids_by_date_raises feed :
  (∀ e, _service_ids_by_date feed = inl e →
        e = parse_error ∨ e = AssertionError "No service found in feed.") ∧
  (_service_ids_by_date feed = inl parse_error ↔
   unparsable_calendar_row feed ∨ unparsable_flag feed ∨
   unparsable_exception_row feed).
Proof.
  split.
  - intros e. unfold _service_ids_by_date.
    intros [Hacc | (results & _ & Hres)]%bind_inl.
    + left. by apply accumulate_inl in Hacc.
    + right. case_decide; [by injection Hres as <- | done].
  - rewrite <- accumulate_raises. unfold _service_ids_by_date. rewrite bind_inl.
    split; [|by left]. intros [? | (results & _ & Hres)]; [done|].
    by case_decide.
Qed.

Lemma same_rows_referenced feed feed' (service_id : string) :
  same_rows feed feed' → referenced feed service_id ↔ referenced feed' service_id.
Proof. intros (Htrips & _ & _). unfold referenced. by setoid_rewrite Htrips. Qed.

Lemma same_rows_sym feed feed' : same_rows feed feed' → same_rows feed' feed.
Proof. intros (? & ? & ?). by split; [|split]. Qed.

Lemma same_rows_raises feed feed' :
  same_rows feed feed' →
  accumulate feed = inl parse_error → accumulate feed' = inl parse_error.
Proof.
  intros Hsame. pose proof Hsame as (Htrips & Hcal & Hcd).
  rewrite !accumulate_raises.
  unfold unparsable_calendar_row, unparsable_flag, unparsable_exception_row.
  intros [(cal & Hin & Href & Hbad) | [(cal & s & e & d & Hin & Href & Hrest)
    | (cd & Hin & Href & Hbad)]].
  - left. exists cal. rewrite <- Hcal, <- (same_rows_referenced feed feed') by done. done.
  - right; left. exists cal, s, e, d.
    rewrite <- Hcal, <- (same_rows_referenced feed feed') by done. done.
  - right; right. exists cd.
    rewrite <- Hcd, <- (same_rows_referenced feed feed') by done. done.
Qed.

Lemma same_rows_active feed feed' (date : Z) (service_id : string) :
  same_rows feed feed' →
  ((calendar_adds feed date service_id ∨ exception_adds feed date service_id) ∧
   ¬ exception_removes feed date service_id) ↔
  ((calendar_adds feed' date service_id ∨ exception_adds feed' date service_id) ∧
   ¬ exception_removes feed' date service_id).
Proof.
  intros Hsame. pose proof Hsame as (Htrips & Hcal & Hcd).
  pose proof (same_rows_referenced feed feed' service_id Hsame) as Href.
  unfold calendar_adds, exception_adds, exception_removes, exception_row.
  setoid_rewrite Hcal. setoid_rewrite Hcd. setoid_rewrite Href. done.
Qed.

(** The outcome depends on the rows of the three tables only as sets:
    neither the order of the rows nor a repeated row changes the mapping
    returned or the exception raised. *)
Theorem service_ids_by_date_same_rows feed feed' :
  same_rows feed feed' → _service_ids_by_date feed = _service_ids_by_date feed'.
Proof.
  intros Hsame. unfold _service_ids_by_date. f_equal.
  destruct (accumulate feed) as [e|r] eqn:Hacc, (accumulate feed') as [e'|r'] eqn:Hacc'.
  - apply accumulate_inl in Hacc, Hacc'. by subst.
  - pose proof (accumulate_inl _ _ Hacc) as ->.
    apply (same_rows_raises feed feed' Hsame) in Hacc. congruence.
  - pose proof (accumulate_inl _ _ Hacc') as ->.
    apply (same_rows_raises feed' feed (same_rows_sym _ _ Hsame)) in Hacc'. congruence.
  - f_equal. apply accumulate_inr in Hacc as [Hact Hne], Hacc' as [Hact' Hne'].
    apply nonempty_values_ext; [done | done |].
    intros date service_id. fold (active r date service_id).
    fold (active r' date service_id). rewrite Hact, Hact'.
    by apply same_rows_active.
Qed.

End raises_facts.

(** ** The queries together *)

Lemma sum_ge_elem (l : list Z) (x : Z) :
  x ∈ l → (∀ y, y ∈ l → 0 ≤ y) → x ≤ foldr Z.add 0 l.
Proof.
  intros Hin Hpos. induction Hin as [x l | x y l Hin IH]; simpl.
  - assert (0 ≤ foldr Z.add 0 l); [|lia].
    clear -Hpos. induction l as [|z l IH]; simpl; [lia|].
    assert (0 ≤ z) by (apply Hpos; right; left).
    assert (0 ≤ foldr Z.add 0 l); [|lia].
    apply IH. intros y [->|Hy]%elem_of_cons; apply Hpos; [left | by right; right].
  - assert (0 ≤ y) by (apply Hpos; left).
    assert (x ≤ foldr Z.add 0 l); [|lia].
    apply IH. intros z Hz. apply Hpos. by right.
Qed.

Lemma trip_count_mono (trips : list TripsRow) (s s' : gset string) :
  s ⊆ s' → trip_count trips s ≤ trip_count trips s'.
Proof.
  intros Hsub. unfold trip_count. apply inj_le.
  induction trips as [|t trips IH]; [done|].
  rewrite !filter_cons. repeat case_decide; simpl; try lia.
  set_solver.
Qed.

Lemma trip_count_le_length (trips : list TripsRow) (s : gset string) :
  trip_count trips s ≤ Z.of_nat (length trips).
Proof. unfold trip_count. apply inj_le, length_filter. Qed.

Section queries_facts.
Context `{Parsers}.
Implicit Types (feed : Feed) (m : gmap Z (gset string)) (counts : gmap Z Z).

Lemma busiest_date_inr feed m :
  _service_ids_by_date feed = inr m →
  ∃ counts date service_ids count,
    _trip_counts_by_date feed = inr counts ∧
    _busiest_date feed = inr (date, service_ids) ∧
    counts !! date = Some count ∧
    m !! date = Some service_ids ∧
    ∀ date' count',
      counts !! date' = Some count' →
      count' ≤ count ∧ (count' = count → date ≤ date').
Proof.
  intros Hm.
  destruct (trip_counts_by_date_dom feed m Hm) as (counts & Hc & Hdom).
  assert (map_to_list counts ≠ []) as Hitems.
  { rewrite map_to_list_empty_iff. intros ->.
    apply service_ids_by_date_inr in Hm as [_ Hne]. apply Hne.
    apply dom_empty_iff_L. by rewrite <- Hdom, dom_empty_L. }
  destruct (max_inr (map_to_list counts) max_by_date Hitems)
    as ([date count] & Hmax & Hin%elem_of_map_to_list & Hgreatest).
  assert (is_Some (m !! date)) as [service_ids Hs].
  { apply elem_of_dom. rewrite <- Hdom. apply elem_of_dom. by eexists. }
  exists counts, date, service_ids, count.
  split; [done|]. split; [|split; [done|split; [done|]]].
  - unfold _busiest_date. rewrite Hm, Hc. simpl. rewrite Hmax. simpl.
    unfold getitem. by rewrite Hs.
  - intros date' count' Hin'%elem_of_map_to_list.
    apply Hgreatest, tuple_lt_false in Hin'. simpl in Hin'. lia.
Qed.

Lemma busiest_week_inr feed m :
  _service_ids_by_date feed = inr m →
  ∃ counts weekly_trip_counts weekly_dates week total result,
    _trip_counts_by_date feed = inr counts ∧
    weekly_buckets m counts = inr (weekly_trip_counts, weekly_dates) ∧
    (∀ w t,
       weekly_trip_counts !! w = Some t ↔
       (∃ date, date ∈ dom m ∧ Week.withdate date = w) ∧
       t = week_total counts (dom m) w) ∧
    weekly_trip_counts !! week = Some total ∧
    (∀ w t,
       weekly_trip_counts !! w = Some t →
       t ≤ total ∧
       (t = total → Week.toordinal week ≤ Week.toordinal w ∧ week ≤ w)) ∧
    _busiest_week feed = inr result ∧
    result = filter (λ kv, Week.withdate kv.1 = week) m ∧
    total = week_total counts (dom result) week.
Proof.
  intros Hm.
  destruct (trip_counts_by_date_dom feed m Hm) as (counts & Hc & Hdom).
  assert (∀ date, date ∈ (map_to_list m).*1 ↔ date ∈ dom m) as Hkeys.
  { intros date. rewrite elem_of_dom, list_elem_of_fmap. split.
    - intros ([d s] & -> & Hin%elem_of_map_to_list). by exists s.
    - intros [s Hs]. exists (date, s). split; [done | by apply elem_of_map_to_list]. }
  destruct (weekly_buckets_loop counts (map_to_list m).*1)
    as (wtc & wd & Hloop & Hwd & Hwtc).
  { intros date Hin%Hkeys. apply elem_of_dom. by rewrite Hdom. }
  assert (∀ w t,
    wtc !! w = Some t ↔
    (∃ date, date ∈ dom m ∧ Week.withdate date = w) ∧
    t = week_total counts (dom m) w) as Hbucket.
  { intros w t. rewrite Hwtc, week_total_keys.
    pose proof (in_week_keys_nil m w) as Hnil. case_decide as Hw.
    - split; [done | intros [Hex _]; by apply Hnil in Hw].
    - split; [intros [= <-] | intros [_ ->]; done].
      split; [|done]. apply dec_stable. intros Hno. by apply Hnil in Hno. }
  assert (map_to_list wtc ≠ []) as Hitems.
  { apply service_ids_by_date_inr in Hm as [_ Hne].
    apply map_choose in Hne as (date & s & Hs).
    assert (is_Some (wtc !! Week.withdate date)) as [t Ht].
    { eexists. apply Hbucket. split; [|done]. exists date.
      split; [apply elem_of_dom; by eexists | done]. }
    intros Hnil. apply elem_of_map_to_list in Ht. rewrite Hnil in Ht. by inversion Ht. }
  destruct (max_inr (map_to_list wtc) max_by_week Hitems)
    as ([week total] & Hmax & Hin%elem_of_map_to_list & Hgreatest).
  destruct (restrict_to_lookup m (getdefault [] wd week) ∅)
    as (result & Hresult & Hlookup).
  { intros date. rewrite Hwd. intros [_ Hin']%list_elem_of_filter.
    by apply elem_of_dom, Hkeys. }
  assert (result = filter (λ kv, Week.withdate kv.1 = week) m) as Hfilter.
  { apply map_eq. intros date. apply option_eq. intros s.
    rewrite map_lookup_filter_Some, Hlookup, Hwd, lookup_empty. simpl.
    case_decide as Hd.
    - apply list_elem_of_filter in Hd as [Hd _]. tauto.
    - split; [done|]. intros [Hs Hw]. exfalso. apply Hd.
      apply list_elem_of_filter. split; [done|]. apply Hkeys, elem_of_dom. by eexists. }
  exists counts, wtc, wd, week, total, result.
  split; [done|]. split; [done|]. split; [done|]. split; [done|].
  split; [|split; [|split; [done|]]].
  - intros w t Hw. pose proof Hw as Hw'. apply elem_of_map_to_list in Hw'.
    apply Hgreatest, tuple_lt_false in Hw'. simpl in Hw'.
    split; [lia|]. intros ->.
    assert (Week.toordinal week ≤ Week.toordinal w) as Hord by lia.
    split; [done|].
    apply Hbucket in Hw as [(d & _ & <-) _]. apply Hbucket in Hin as [(d' & _ & <-) _].
    by apply toordinal_le.
  - unfold _busiest_week. rewrite Hm, Hc. simpl.
    unfold weekly_buckets. rewrite Hloop. simpl. rewrite Hmax. simpl.
    exact Hresult.
  - apply Hbucket in Hin as [_ ->]. unfold week_total. do 3 f_equal.
    apply set_eq. intros date. rewrite !elem_of_filter, !elem_of_dom, Hfilter.
    split.
    + intros [Hw [s Hs]]. split; [done|]. exists s.
      by apply map_lookup_filter_Some.
    + intros [Hw [s [Hs _]%map_lookup_filter_Some]]. split; [done | by exists s].
Qed.

(** The four queries raise exactly when calendar resolution raises, and
    then the same exception: none of them adds a failure of its own, be
    it a missing key or a maximum over nothing. *)
Theorem queries_raise_as_resolution feed (e : exn) :
  (_dates_by_service_ids feed = inl e ↔ _service_ids_by_date feed = inl e) ∧
  (_trip_counts_by_date feed = inl e ↔ _service_ids_by_date feed = inl e) ∧
  (_busiest_date feed = inl e ↔ _service_ids_by_date feed = inl e) ∧
  (_busiest_week feed = inl e ↔ _service_ids_by_date feed = inl e).
Proof.
  destruct (_service_ids_by_date feed) as [e0|m] eqn:Hm.
  - unfold _busiest_date, _busiest_week, _trip_counts_by_date, _dates_by_service_ids.
    rewrite Hm. simpl. repeat split; by intros [= ->].
  - destruct (trip_counts_by_date_inr feed m Hm) as (counts & Hc & _).
    destruct (busiest_date_inr feed m Hm) as (? & d & sids & ? & _ & Hd & _).
    destruct (busiest_week_inr feed m Hm)
      as (? & ? & ? & ? & ? & result & _ & _ & _ & _ & _ & Hw & _).
    rewrite Hc, Hd, Hw. unfold _dates_by_service_ids. rewrite Hm. simpl.
    repeat split; discriminate.
Qed.

(** A date's count is at least 1 and at most the number of trips, and it
    grows with the date's service set: a date whose services are among
    those of another date has no more trips; dates with identical service
    have identical counts. *)
Theorem trip_counts_bounded feed m counts :
  _service_ids_by_date feed = inr m →
  _trip_counts_by_date feed = inr counts →
  (∀ date count,
     counts !! date = Some count → 1 ≤ count ≤ Z.of_nat (length (trips feed))) ∧
  (∀ date date' service_ids service_ids' count count',
     m !! date = Some service_ids → m !! date' = Some service_ids' →
     counts !! date = Some count → counts !! date' = Some count' →
     (service_ids ⊆ service_ids' → count ≤ count') ∧
     (service_ids = service_ids' → count = count')).
Proof.
  intros Hm Hc.
  destruct (trip_counts_by_date_inr feed m Hm) as (counts' & Hc' & Hlookup).
  assert (counts' = counts) as -> by congruence.
  pose proof (service_ids_by_date_active feed m Hm) as Hact.
  pose proof (service_ids_by_date_nonempty feed m Hm) as Hne.
  split.
  - intros date count. rewrite Hlookup.
    destruct (m !! date) as [s|] eqn:Hs; [|done]. intros [= <-].
    split; [|apply trip_count_le_length].
    pose proof (Hne date s Hs) as [service_id Hin]%set_choose_L.
    assert (active m date service_id) as Ha
      by (unfold active, getdefault; by rewrite Hs).
    assert (referenced feed service_id) as (t & Ht & Hid).
    { apply Hact in Ha as [[(? & ? & ? & _ & _ & Href & _) | (? & _ & _ & Href & _)] _];
        done. }
    apply (trip_count_positive _ _ t); [done | by rewrite Hid].
  - intros date date' s s' c c' Hs Hs'. rewrite !Hlookup, Hs, Hs'.
    intros [= <-] [= <-]. split; [apply trip_count_mono | by intros ->].
Qed.

(** The busiest week returned is a non-empty part of the date-to-services
    mapping, with the service sets unchanged; its dates lie in one span of
    seven days that starts on a Monday, so there are at most seven. *)
Theorem busiest_week_shape feed result :
  _busiest_week feed = inr result →
  result ≠ ∅ ∧
  (∃ m, _service_ids_by_date feed = inr m ∧ result ⊆ m) ∧
  (∃ monday,
     weekday monday = 0 ∧
     ∀ date, date ∈ dom result → monday ≤ date ≤ monday + 6) ∧
  (size result ≤ 7)%nat.
Proof.
  intros Hresult.
  destruct (_service_ids_by_date feed) as [e|m] eqn:Hm.
  { unfold _busiest_week in Hresult. by rewrite Hm in Hresult. }
  destruct (busiest_week_inr feed m Hm)
    as (counts & wtc & wd & week & total & result' & _ & _ & Hbucket & Hweek & _
        & Hw & Hfilter & _).
  assert (result' = result) as -> by congruence.
  apply Hbucket in Hweek as [(d0 & [s0 Hs0]%elem_of_dom & Hd0) _].
  assert (∀ date, date ∈ dom result → week ≤ date ≤ week + 6) as Hspan.
  { intros date [s Hs]%elem_of_dom. rewrite Hfilter in Hs.
    apply map_lookup_filter_Some in Hs as [_ Hdate]. simpl in Hdate.
    unfold Week.withdate in Hdate. pose proof (weekday_range date). lia. }
  split; [|split; [|split]].
  - assert (result !! d0 = Some s0) as Hin.
    { rewrite Hfilter. by apply map_lookup_filter_Some. }
    intros Hempty. rewrite Hempty in Hin. by rewrite lookup_empty in Hin.
  - exists m. split; [done|]. rewrite Hfilter. apply map_filter_subseteq.
  - exists week. split; [|done]. rewrite <- Hd0.
    unfold Week.withdate. pose proof (withdate_monday d0) as Hmon.
    unfold Week.withdate in Hmon. unfold weekday at 1.
    replace (d0 - weekday d0 + 6) with ((d0 - weekday d0 - 1) + 1 * 7) by lia.
    rewrite Z.mod_add by lia. done.
  - rewrite <- size_dom.
    assert (dom result ⊆ list_to_set (seqZ week 7)) as Hsub.
    { intros date Hdate%Hspan. apply elem_of_list_to_set, elem_of_seqZ. lia. }
    apply subseteq_size in Hsub.
    rewrite size_list_to_set, length_seqZ in Hsub by apply NoDup_seqZ. exact Hsub.
Qed.

(** The busiest week carries at least as many trips as the busiest date:
    the counts of the dates returned by [_busiest_week] add up to no less
    than the count of the date returned by [_busiest_date]. *)
Theorem busiest_week_total_ge_busiest_date feed counts result
    (date : Z) (service_ids : gset string) :
  _trip_counts_by_date feed = inr counts →
  _busiest_date feed = inr (date, service_ids) →
  _busiest_week feed = inr result →
  getdefault 0 counts date ≤ total_count counts (dom result).
Proof.
  intros Hc Hdate Hresult.
  destruct (_service_ids_by_date feed) as [e|m] eqn:Hm.
  { unfold _busiest_week in Hresult. by rewrite Hm in Hresult. }
  destruct (busiest_date_inr feed m Hm)
    as (counts' & date' & sids' & count & Hc' & Hdate' & Hcount & Hs & _).
  assert (counts' = counts) as -> by congruence.
  assert (date' = date) as -> by congruence.
  destruct (busiest_week_inr feed m Hm)
    as (counts' & wtc & wd & week & total & result' & Hc'' & _ & Hbucket & Hweek
        & Hmax & Hw & Hfilter & Htotal).
  assert (counts' = counts) as -> by congruence.
  assert (result' = result) as -> by congruence.
  destruct (trip_counts_by_date_inr feed m Hm) as (counts' & Hc3 & Hlookup).
  assert (counts' = counts) as -> by congruence.
  assert (∀ d, 0 ≤ getdefault 0 counts d) as Hpos.
  { intros d. unfold getdefault. rewrite Hlookup.
    destruct (m !! d); simpl; [|done]. unfold trip_count. lia. }
  assert (wtc !! Week.withdate date =
          Some (week_total counts (dom m) (Week.withdate date))) as Hown.
  { apply Hbucket. split; [|done]. exists date.
    split; [apply elem_of_dom; by eexists | done]. }
  apply Hmax in Hown as [Hle _].
  assert (total_count counts (dom result) = total) as ->.
  { rewrite Htotal. unfold total_count, week_total. do 3 f_equal.
    apply set_eq. intros d. rewrite elem_of_filter, !elem_of_dom, Hfilter.
    split; [|tauto]. intros [s Hd]. split; [|by exists s].
    by apply map_lookup_filter_Some in Hd as [_ ?]. }
  etrans; [|exact Hle]. unfold week_total. apply sum_ge_elem.
  - apply list_elem_of_fmap. exists date. split; [done|].
    apply elem_of_elements, elem_of_filter. split; [done|].
    apply elem_of_dom. by eexists.
  - intros y (d & -> & _)%list_elem_of_fmap. apply Hpos.
Qed.

End queries_facts.

(** ** The feed that load_feed builds *)

Section feed_object_facts.
Context {DiGraph ColumnFilter : Type} `{Graph DiGraph}.
Implicit Types (path : string) (filters : list (string * ColumnFilter))
  (config : DiGraph) (feed : @FeedObject DiGraph ColumnFilter).

Lemma concat_singletons {A : Type} (l : list A) :
  concat ((λ item, [item]) <$> l) = l.
Proof. induction l as [|x l IH]; [done|]. cbn [fmap list_fmap concat]. by f_equal. Qed.

Lemma views_layers filters feed config :
  views (foldl layer (feed, config) filters).1 =
  (views feed ++ ((λ item, [item]) <$> filters))%list.
Proof.
  revert feed config. induction filters as [|[filename column_filters] filters IH];
    intros feed config; simpl.
  - by rewrite app_nil_r.
  - rewrite IH. simpl. by rewrite <- app_assoc.
Qed.

Lemma configs_layers filters feed config :
  configs (foldl layer (feed, config) filters).1 =
  (configs feed ++ rerooted config filters.*1)%list.
Proof.
  revert feed config. induction filters as [|[filename column_filters] filters IH];
    intros feed config; simpl.
  - by rewrite app_nil_r.
  - rewrite IH. simpl. by rewrite <- app_assoc.
Qed.

Lemma source_path_layers filters feed config :
  source_path (foldl layer (feed, config) filters).1 = source_path feed.
Proof.
  revert feed config. induction filters as [|[filename column_filters] filters IH];
    intros feed config; simpl; [done|]. by rewrite IH.
Qed.

Lemma load_feed_dir_run {FS : Type} (handle : ∀ X, fsE X → FS → X * FS)
    path filters config (s : FS) :
  run handle (_load_feed path filters config) s =
  match (handle _ (FeedInit path) s).1 with
  | Some err =>
      (inl (External err), (handle _ (FeedInit path) s).2, [call_of (FeedInit path)])
  | None =>
      (inr (Feed_of_feed
              (foldl layer
                 (FeedOverPath path [] (remove_node_attributes config "converters") false,
                  remove_node_attributes config "converters") filters).1
              [] config),
       (handle _ (FeedInit path) s).2, [call_of (FeedInit path)])
  end.
Proof.
  unfold _load_feed, Feed_of_path, checked, call. simpl.
  destruct (handle _ (FeedInit path) s) as [[err|] s']; simpl; [done|].
  by destruct (foldl layer _ filters).
Qed.

Lemma load_feed_dir_feed {FS : Type} (handle : ∀ X, fsE X → FS → X * FS)
    path filters config (s : FS) feed :
  (run handle (_load_feed path filters config) s).1.1 = inr feed →
  source_path feed = path ∧
  delete_after_reading feed = false ∧
  views feed = ([] :: ((λ item, [item]) <$> filters) ++ [[]])%list ∧
  concat (views feed) = filters ∧
  length (views feed) = (length filters + 2)%nat ∧
  configs feed =
    (remove_node_attributes config "converters" ::
     rerooted (remove_node_attributes config "converters") filters.*1 ++ [config])%list.
Proof.
  rewrite load_feed_dir_run.
  destruct ((handle _ (FeedInit path) s).1) as [err|]; simpl; [done|].
  intros [= <-]. simpl.
  rewrite source_path_layers, views_layers, configs_layers. simpl.
  split; [done|]. split; [done|]. split; [done|]. split; [|split; [|done]].
  - rewrite concat_app, concat_singletons. simpl. by rewrite app_nil_r.
  - rewrite length_app, length_fmap. simpl. lia.
Qed.

(** The feed [_load_feed] returns can be read back: it reads the directory
    it was given; its layers are a base without a filter, one layer for
    each filter in the order supplied, and a top layer without a filter, so
    the views concatenated are the filters; only the top layer has the
    graph supplied, the layers below have the converter-free graph,
    rerooted filename after filename. *)
Theorem load_feed_layers {FS : Type} (handle : ∀ X, fsE X → FS → X * FS)
    path filters config (s : FS) feed :
  (run handle (_load_feed path filters config) s).1.1 = inr feed →
  source_path feed = path ∧
  delete_after_reading feed = false ∧
  views feed = ([] :: ((λ item, [item]) <$> filters) ++ [[]])%list ∧
  concat (views feed) = filters ∧
  length (views feed) = (length filters + 2)%nat ∧
  configs feed =
    (remove_node_attributes config "converters" ::
     rerooted (remove_node_attributes config "converters") filters.*1 ++ [config])%list.
Proof. apply load_feed_dir_feed. Qed.

Lemma unpack_feed_run {FS : Type} (handle : ∀ X, fsE X → FS → X * FS)
    path filters config (s : FS) :
  let tmpdir := (handle _ Mkdtemp s).1 in
  let '(r, _, calls) := run handle (_unpack_feed path filters config) s in
  ((∃ err, r = inl (External err)) ∧
   (calls = [call_of Mkdtemp; call_of (UnpackArchive path tmpdir)] ∨
    calls = [call_of Mkdtemp; call_of (UnpackArchive path tmpdir);
             call_of (FeedInit tmpdir)])) ∨
  ((∃ feed, r = inr feed ∧ delete_after_reading feed = true ∧
            source_path feed = tmpdir ∧ concat (views feed) = filters) ∧
   calls = [call_of Mkdtemp; call_of (UnpackArchive path tmpdir);
            call_of (FeedInit tmpdir); call_of (Finalize tmpdir)]).
Proof.
  unfold _unpack_feed, _load_feed, Feed_of_path, checked, call. simpl.
  destruct (handle _ Mkdtemp s) as [tmpdir s1]; simpl.
  destruct (handle _ (UnpackArchive path tmpdir) s1) as [[err|] s2]; simpl.
  - left. split; [by exists err | by left].
  - destruct (handle _ (FeedInit tmpdir) s2) as [[err|] s3]; simpl.
    + left. split; [by exists err | by right].
    + destruct (foldl layer _ filters) as [feed g] eqn:Hlayers. simpl.
      destruct (handle _ (Finalize tmpdir) s3) as [[] s4]. simpl.
      right. split; [|done]. eexists. split; [done|]. split; [done|].
      pose proof (source_path_layers filters
        (FeedOverPath tmpdir [] (remove_node_attributes config "converters") false)
        (remove_node_attributes config "converters")) as Hpath.
      pose proof (views_layers filters
        (FeedOverPath tmpdir [] (remove_node_attributes config "converters") false)
        (remove_node_attributes config "converters")) as Hviews.
      rewrite Hlayers in Hpath, Hviews. simpl in *. split; [done|].
      rewrite Hviews. simpl. rewrite concat_app, concat_singletons. simpl.
      by rewrite app_nil_r.
Qed.

(** [_unpack_feed] makes a temporary directory first and unpacks into it.
    The clean-up of that directory is registered, and the feed marked for
    deletion after reading, only as the last step: when unpacking or the
    construction of the feed raises, no clean-up is registered for the
    directory made. *)
Theorem unpack_feed_cleanup {FS : Type} (handle : ∀ X, fsE X → FS → X * FS)
    path filters config (s : FS) :
  let tmpdir := (handle _ Mkdtemp s).1 in
  let '(r, _, calls) := run handle (_unpack_feed path filters config) s in
  ((∃ err, r = inl (External err)) ∧
   (calls = [call_of Mkdtemp; call_of (UnpackArchive path tmpdir)] ∨
    calls = [call_of Mkdtemp; call_of (UnpackArchive path tmpdir);
             call_of (FeedInit tmpdir)])) ∨
  ((∃ feed, r = inr feed ∧ delete_after_reading feed = true ∧
            source_path feed = tmpdir ∧ concat (views feed) = filters) ∧
   calls = [call_of Mkdtemp; call_of (UnpackArchive path tmpdir);
            call_of (FeedInit tmpdir); call_of (Finalize tmpdir)]).
Proof. apply unpack_feed_run. Qed.

(** With an acyclic graph and a path that is a directory, [load_feed] asks
    whether the path is a directory, builds the feed over it, and makes no
    other call: nothing is unpacked and no temporary directory is made.
    The feed, when its construction does not raise, reads that directory
    and is not marked for deletion after reading. *)
Theorem load_feed_directory_calls {FS : Type} (handle : ∀ X, fsE X → FS → X * FS)
    path (filters : option (list (string * ColumnFilter)))
    (config : option DiGraph) (s : FS) :
  is_directed_acyclic_graph (default default_config config) = true →
  (handle _ (IsDir path) s).1 = true →
  let '(r, _, calls) := run handle (load_feed path filters config) s in
  calls = [call_of (IsDir path); call_of (FeedInit path)] ∧
  ∀ feed, r = inr feed →
    source_path feed = path ∧ delete_after_reading feed = false ∧
    concat (views feed) = default [] filters.
Proof.
  intros Hdag Hdir.
  assert (load_feed path filters config =
    (isdir ← call (IsDir path);
     if isdir : bool
     then _load_feed path (default [] filters) (default default_config config)
     else
       isfile ← call (IsFile path);
       if isfile : bool
       then _unpack_feed path (default [] filters) (default default_config config)
       else throw (ValueError ("File or path not found: " ++ path)))) as ->.
  { unfold load_feed. destruct config, filters; simpl in *; by rewrite Hdag. }
  pose proof (load_feed_dir_feed handle path (default [] filters)
    (default default_config config)) as Hlayers.
  pose proof (load_feed_dir_run handle path (default [] filters)
    (default default_config config)) as Hrun.
  revert Hlayers Hrun.
  generalize (_load_feed path (default [] filters) (default default_config config)).
  intros dir Hlayers Hrun. unfold call. simpl.
  destruct (handle _ (IsDir path) s) as [isdir s1]. simpl in Hdir. subst isdir. simpl.
  specialize (Hlayers s1). specialize (Hrun s1).
  destruct (run handle dir s1) as [[r s2] calls]. simpl in *.
  split.
  - destruct ((handle _ (FeedInit path) s1).1); by injection Hrun as _ _ ->.
  - intros feed ->. destruct (Hlayers feed eq_refl) as (? & ? & _ & ? & _). done.
Qed.

(** With an acyclic graph and a path that is a file and not a directory,
    [load_feed] asks both questions, makes a temporary directory and
    unpacks the file into it before anything else; the feed, when nothing
    raises, reads the temporary directory, not the path, is marked for
    deletion after reading, and the clean-up of the directory is the last
    call. *)
Theorem load_feed_archive_calls {FS : Type} (handle : ∀ X, fsE X → FS → X * FS)
    path (filters : option (list (string * ColumnFilter)))
    (config : option DiGraph) (s : FS) :
  is_directed_acyclic_graph (default default_config config) = true →
  (handle _ (IsDir path) s).1 = false →
  (handle _ (IsFile path) (handle _ (IsDir path) s).2).1 = true →
  let '(r, _, calls) := run handle (load_feed path filters config) s in
  ∃ tmpdir rest,
    calls = (call_of (IsDir path) :: call_of (IsFile path) :: call_of Mkdtemp ::
             call_of (UnpackArchive path tmpdir) :: rest) ∧
    ∀ feed, r = inr feed →
      rest = [call_of (FeedInit tmpdir); call_of (Finalize tmpdir)] ∧
      source_path feed = tmpdir ∧ delete_after_reading feed = true ∧
      concat (views feed) = default [] filters.
Proof.
  intros Hdag Hdir Hfile.
  assert (load_feed path filters config =
    (isdir ← call (IsDir path);
     if isdir : bool
     then _load_feed path (default [] filters) (default default_config config)
     else
       isfile ← call (IsFile path);
       if isfile : bool
       then _unpack_feed path (default [] filters) (default default_config config)
       else throw (ValueError ("File or path not found: " ++ path)))) as ->.
  { unfold load_feed. destruct config, filters; simpl in *; by rewrite Hdag. }
  pose proof (λ s, unpack_feed_run handle path (default [] filters)
    (default default_config config) s) as Hrun.
  revert Hrun.
  generalize (_unpack_feed path (default [] filters) (default default_config config)).
  generalize (_load_feed path (default [] filters) (default default_config config)).
  intros dir arc Hrun. unfold call. simpl.
  destruct (handle _ (IsDir path) s) as [isdir s1]. simpl in Hdir, Hfile. subst isdir.
  simpl. destruct (handle _ (IsFile path) s1) as [isfile s2]. simpl in Hfile.
  subst isfile. simpl. specialize (Hrun s2).
  destruct (run handle arc s2) as [[r s3] calls]. simpl in *.
  destruct Hrun as [[[err ->] [-> | ->]] | [(feed & -> & Hflag & Hpath & Hviews) ->]].
  - eexists _, _. split; [reflexivity | done].
  - eexists _, _. split; [reflexivity | done].
  - eexists _, _. split; [reflexivity|]. by intros feed' [= <-].
Qed.

End feed_object_facts.

(** ** The read functions *)

Section read_facts.
Context {DiGraph ColumnFilter : Type} `{Graph DiGraph} `{Parsers}.
Variable tables : @FeedObject DiGraph ColumnFilter → Feed.

Lemma run_query {FS A : Type} (handle : ∀ X, fsE X → FS → X * FS)
    (query : Feed → result A) (path : string) (s : FS) :
  run handle (feed ← load_raw_feed (ColumnFilter := ColumnFilter) path;
              Ret (query (tables feed))) s =
  let '(r, s', calls) := run handle (load_raw_feed (ColumnFilter := ColumnFilter) path) s in
  (feed ← r; query (tables feed), s', calls).
Proof.
  generalize (load_raw_feed (ColumnFilter := ColumnFilter) path).
  intros m. revert s. induction m as [[e|feed]|X e k IH]; intros s.
  - done.
  - done.
  - change (run handle (Vis e (λ x, feed ← k x; Ret (query (tables feed)))) s =
            let '(r, s', calls) := run handle (Vis e k) s in
            (feed ← r; query (tables feed), s', calls)).
    simpl. destruct (handle X e s) as [x s']. rewrite IH.
    by destruct (run handle (k x) s') as [[r s''] calls].
Qed.


(** When the raw graph is acyclic and the path is neither a directory nor
    a file, every read function raises the input error after asking the
    file system those two questions, whatever the default graph is, and
    without reading any table. *)
Theorem read_functions_missing_path {FS : Type} (handle : ∀ X, fsE X → FS → X * FS)
    (path : string) (s : FS) :
  is_directed_acyclic_graph empty_config = true →
  (handle _ (IsDir path) s).1 = false →
  (handle _ (IsFile path) (handle _ (IsDir path) s).2).1 = false →
  let raised {A : Type} : result A * FS * list {X : Type & fsE X} :=
    (inl (ValueError ("File or path not found: " ++ path)),
     (handle _ (IsFile path) (handle _ (IsDir path) s).2).2,
     [call_of (IsDir path); call_of (IsFile path)]) in
  run handle (read_busiest_date tables path) s = raised ∧
  run handle (read_busiest_week tables path) s = raised ∧
  run handle (read_service_ids_by_date tables path) s = raised ∧
  run handle (read_dates_by_service_ids tables path) s = raised ∧
  run handle (read_trip_counts_by_date tables path) s = raised.
Proof.
  intros Hdag Hdir Hfile.
  unfold read_busiest_date, read_busiest_week, read_service_ids_by_date,
    read_dates_by_service_ids, read_trip_counts_by_date.
  rewrite !run_query.
  assert (run handle (load_raw_feed (ColumnFilter := ColumnFilter) path) s =
          (inl (ValueError ("File or path not found: " ++ path)),
           (handle _ (IsFile path) (handle _ (IsDir path) s).2).2,
           [call_of (IsDir path); call_of (IsFile path)])) as ->.
  { unfold load_raw_feed, load_feed. simpl. rewrite Hdag. unfold call. simpl.
    destruct (handle _ (IsDir path) s) as [isdir s1]. simpl in *. subst isdir. simpl.
    destruct (handle _ (IsFile path) s1) as [isfile s2]. simpl in *. subst isfile.
    done. }
  done.
Qed.

End read_facts.

(** ** Closed instances of the further properties *)

Section further_instances.
Local Existing Instance strict_parsers.
Local Existing Instance edge_list_graph.

Lemma service_ids_by_date_same_rows_witness :
  same_rows example_feed example_feed_shuffled ∧
  _service_ids_by_date example_feed = _service_ids_by_date example_feed_shuffled.
Proof.
  assert (same_rows example_feed example_feed_shuffled) as Hsame.
  { unfold same_rows, example_feed_shuffled, example_caldates_reversed. simpl.
    split; [|split]; intros x; rewrite ?elem_of_cons, ?elem_of_nil; tauto. }
  split; [exact Hsame|].
  exact (service_ids_by_date_same_rows example_feed example_feed_shuffled Hsame).
Defined.

Lemma example_counts_resolve : _trip_counts_by_date example_feed = inr example_counts.
Proof. vm_compute. reflexivity. Qed.

Lemma example_week_resolves : _busiest_week example_feed = inr example_week.
Proof. vm_compute. reflexivity. Qed.

Lemma trip_counts_bounded_witness :
  _service_ids_by_date example_feed = inr example_services ∧
  _trip_counts_by_date example_feed = inr example_counts ∧
  ∀ date count,
    example_counts !! date = Some count →
    1 ≤ count ≤ Z.of_nat (length (trips example_feed)).
Proof.
  split; [exact example_resolves|]. split; [exact example_counts_resolve|].
  exact (proj1 (trip_counts_bounded example_feed example_services example_counts
                  example_resolves example_counts_resolve)).
Defined.

Lemma busiest_week_shape_witness :
  _busiest_week example_feed = inr example_week ∧
  example_week ≠ ∅ ∧ (size example_week ≤ 7)%nat.
Proof.
  split; [exact example_week_resolves|].
  destruct (busiest_week_shape example_feed example_week example_week_resolves)
    as (Hne & _ & _ & Hsize).
  split; [exact Hne | exact Hsize].
Defined.

Lemma busiest_week_total_ge_busiest_date_witness :
  _trip_counts_by_date example_feed = inr example_counts ∧
  _busiest_date example_feed = inr (737426, {[ "WD" ]}) ∧
  _busiest_week example_feed = inr example_week ∧
  getdefault 0 example_counts 737426 ≤ total_count example_counts (dom example_week).
Proof.
  assert (_busiest_date example_feed = inr (737426, {[ "WD" ]})) as Hdate
    by (vm_compute; reflexivity).
  split; [exact example_counts_resolve|]. split; [exact Hdate|].
  split; [exact example_week_resolves|].
  exact (busiest_week_total_ge_busiest_date example_feed example_counts example_week
           737426 {[ "WD" ]} example_counts_resolve Hdate example_week_resolves).
Defined.

Lemma load_feed_layers_witness :
  ∃ feed,
    (run all_directories (_load_feed "feed" example_filters default_config) ()).1.1
      = inr feed ∧
    concat (views feed) = example_filters ∧
    length (views feed) = 4%nat.
Proof.
  destruct ((run all_directories (_load_feed "feed" example_filters default_config)
               ()).1.1) as [e|feed] eqn:Hrun.
  - vm_compute in Hrun. discriminate Hrun.
  - exists feed. split; [reflexivity|].
    destruct (load_feed_layers all_directories "feed" example_filters
                default_config () feed Hrun)
      as (_ & _ & _ & Hconcat & Hlength & _).
    split; [exact Hconcat | exact Hlength].
Defined.

Lemma load_feed_directory_calls_witness :
  is_directed_acyclic_graph
    (default (default_config (DiGraph := list (string * string))) None) = true ∧
  (all_directories _ (IsDir "feed") ()).1 = true ∧
  (run all_directories (load_feed "feed" (Some example_filters) None) ()).2
    = [call_of (IsDir "feed"); call_of (FeedInit "feed")].
Proof.
  assert (is_directed_acyclic_graph
            (default (default_config (DiGraph := list (string * string))) None) = true)
    as Hdag by (vm_compute; reflexivity).
  split; [exact Hdag|]. split; [reflexivity|].
  pose proof (load_feed_directory_calls all_directories "feed" (Some example_filters)
                None () Hdag eq_refl) as Hcalls.
  destruct (run all_directories (load_feed "feed" (Some example_filters) None) ())
    as [[r s] calls].
  exact (proj1 Hcalls).
Defined.

Lemma load_feed_archive_calls_witness :
  is_directed_acyclic_graph
    (default (default_config (DiGraph := list (string * string))) None) = true ∧
  (all_archives _ (IsDir "feed.zip") ()).1 = false ∧
  (all_archives _ (IsFile "feed.zip") ()).1 = true ∧
  ∃ tmpdir rest,
    (run all_archives (load_feed "feed.zip" (Some example_filters) None) ()).2
    = (call_of (IsDir "feed.zip") :: call_of (IsFile "feed.zip") :: call_of Mkdtemp ::
       call_of (UnpackArchive "feed.zip" tmpdir) :: rest).
Proof.
  assert (is_directed_acyclic_graph
            (default (default_config (DiGraph := list (string * string))) None) = true)
    as Hdag by (vm_compute; reflexivity).
  split; [exact Hdag|]. split; [reflexivity|]. split; [reflexivity|].
  pose proof (load_feed_archive_calls all_archives "feed.zip" (Some example_filters)
                None () Hdag eq_refl eq_refl) as Hcalls.
  destruct (run all_archives (load_feed "feed.zip" (Some example_filters) None) ())
    as [[r s] calls].
  destruct Hcalls as (tmpdir & rest & Hcalls & _).
  exists tmpdir, rest. exact Hcalls.
Defined.

Lemma read_functions_missing_path_witness :
  is_directed_acyclic_graph (empty_config (DiGraph := list (string * string))) = true ∧
  run nothing_exists
    (read_busiest_date (ColumnFilter := string) (λ _, example_feed) "feed") ()
  = (inl (ValueError "File or path not found: feed"), (),
     [call_of (IsDir "feed"); call_of (IsFile "feed")]).
Proof.
  assert (is_directed_acyclic_graph (empty_config (DiGraph := list (string * string)))
          = true) as Hdag by (vm_compute; reflexivity).
  split; [exact Hdag|].
  exact (proj1 (read_functions_missing_path (ColumnFilter := string)
                  (λ _, example_feed) nothing_exists "feed" () Hdag eq_refl eq_refl)).
Defined.

End further_instances.
